(** * caffix/service: the queue-based [BaseService] of base.go

    A shallow embedding of the lifecycle (Start / Stop), the request queue
    with its dispatcher goroutine ([processRequests]) and the rate-limit
    adapter, with the properties of the service's specification stated and
    settled against it.

    Modelling conventions.
    - A Go channel of type [chan struct{}] that is only ever closed (the
      service's [done] channel) is a cell of a channel heap holding its
      "closed" flag; [nil] is [None].  Receiving from such a channel is
      possible exactly when it is non-nil and closed.
    - A [context.Context] is known to the service only through its [Done()]
      channel; a context is an identifier and the world records which
      contexts have been cancelled (or have expired).
    - The methods [Start], [Stop], [Request], ... are state transformers in
      a small state monad with panics.  The goroutines spawned by [Start]
      are explicit: each has a program counter and moves one statement at a
      time, interleaved with the caller and with each other.
    - There are two transition systems.  In [step] a method call of the
      caller is one step: the view of a client that looks at the service
      between its calls.  In [istep] the statements of [Start] and [Stop]
      are steps of their own and the dispatchers run in between; every
      execution of [step] is one of [istep] ([step_refines]).
    - A panic that nothing recovers ends the process: a step that panics
      has no next world.  The panics of a dispatcher are told apart from a
      blocked receive by [proc_panics].
    - The hooks of the embedding service ([OnStart], [OnStop], [OnRequest])
      are an interface; they act on the embedding service's own state. *)

From stdpp Require Import base option list strings.
From Stdlib Require Import ZArith Lia.

(** ** Data model *)

Definition chan := nat.
Definition Context := nat.
Definition error := string.

(** [type Args interface{}]: a Go value, as [Request] is handed it and as
    it comes out of [reflect.ValueOf] in [queueRequest]: a context, an opaque
    payload of some type [A], or the nil interface value, for which
    [reflect.ValueOf] returns the zero [reflect.Value]. *)
Inductive Args (A : Type) : Type :=
| ArgCtx (ctx : Context)
| ArgVal (v : A)
| ArgNil.
Arguments ArgCtx {A} ctx.
Arguments ArgVal {A} v.
Arguments ArgNil {A}.

(** The function stored in a [queuedCall]: [Request] only ever binds
    [bas.service.OnRequest]. *)
Inductive Fn : Type := FnOnRequest.

(** [type queuedCall struct { Func reflect.Value; Args []reflect.Value }] *)
Record queuedCall (A : Type) : Type := mkCall {
  Func : Fn;
  Args' : list (Args A)
}.
Arguments mkCall {A} Func Args'.
Arguments Func {A} q.
Arguments Args' {A} q.

(** Modelled from the spec: the limiter of go.uber.org/ratelimit, which is
    not part of this repository.  [ratelimit.New(rate, WithoutSlack)] allows
    [rate] acquisitions per second with no burst slack: each acquisition
    after the first blocks until [time.Second / rate] has elapsed since the
    previous one.  Times are nanoseconds. *)
Record Limiter : Type := mkLimiter {
  perRequest : Z;
  last : option Z
}.

(** [time.Second], in nanoseconds. *)
Definition Second : Z := 1000000000.

(** Modelled from the spec: [ratelimit.New(rate, ratelimit.WithoutSlack)], a
    limiter that has not been taken from yet; its period is the integer
    quotient [time.Second / rate]. *)
Definition ratelimit_New (rate : Z) : Limiter :=
  {| perRequest := Z.quot Second rate; last := None |}.

(** Modelled from the spec: [Take] blocks until the permit is available and
    returns the instant at which the caller resumes. *)
Definition Take (now : Z) (l : Limiter) : Limiter * Z :=
  match last l with
  | None => ({| perRequest := perRequest l; last := Some now |}, now)
  | Some t =>
      let wake := Z.max now (t + perRequest l) in
      ({| perRequest := perRequest l; last := Some wake |}, wake)
  end.

(** [type BaseService struct]; the two mutexes are not fields of the model:
    [running], [setRunning], [SetRateLimit] and the read of [CheckRateLimit]
    are each one step. *)
Record BaseService (A : Type) : Type := mkBase {
  name : string;
  runs : bool;
  queue : list (queuedCall A);
  done : option chan;
  rlimit : option Limiter
}.
Arguments mkBase {A} name runs queue done rlimit.
Arguments name {A} b.
Arguments runs {A} b.
Arguments queue {A} b.
Arguments done {A} b.
Arguments rlimit {A} b.

(** The hooks of the [Service] interface that [BaseService] calls back. *)
Class Service (A U : Type) : Type := {
  OnStart : U → U * option error;
  OnStop : U → U * option error;
  OnRequest : Context → Args A → U → U
}.

(** Program counter of one [processRequests] goroutine. *)
Inductive Pc (A : Type) : Type :=
| PcLoop                        (* top of [for]: the select's channels are not yet evaluated *)
| PcSelect (c : option chan)    (* blocked in the outer select; [c] is what [bas.Done()] returned *)
| PcNext                        (* inside [queue.Process]: about to call [Next()] *)
| PcEach (e : queuedCall A)     (* [each(e)] entered, before its select *)
| PcCall (e : queuedCall A)     (* [default] taken, before [e.Func.Call(e.Args)] *)
| PcHandler (e : queuedCall A)  (* the handler is running *)
| PcExit.                       (* returned after [<-bas.Done()] *)
Arguments PcLoop {A}.
Arguments PcSelect {A} c.
Arguments PcNext {A}.
Arguments PcEach {A} e.
Arguments PcCall {A} e.
Arguments PcHandler {A} e.
Arguments PcExit {A}.

(** What an execution leaves behind, one entry per effect. *)
Inductive Event (A : Type) : Type :=
| EvMake (c : chan)                      (* [make(chan struct{})] *)
| EvGo (d : nat)                         (* [go bas.processRequests()] *)
| EvSetRunning (v : bool)                (* [bas.setRunning(v)] *)
| EvClose (c : chan)                     (* [close(bas.done)] *)
| EvOnStart (r : option error)           (* [bas.service.OnStart()] returned [r] *)
| EvOnStop (r : option error)            (* [bas.service.OnStop()] returned [r] *)
| EvAppend (e : queuedCall A)            (* [bas.queue.Append(e)] *)
| EvCancel (ctx : Context)               (* a context was cancelled or expired *)
| EvNext (d : nat) (e : queuedCall A)    (* dispatcher [d] dequeued [e] *)
| EvDrop (d : nat) (e : queuedCall A)    (* [each(e)] took a [Done] branch *)
| EvLive (d : nat) (e : queuedCall A)    (* [each(e)] took the [default] branch *)
| EvCall (d : nat) (e : queuedCall A)    (* [e.Func.Call(e.Args)] begins *)
| EvReturn (d : nat) (e : queuedCall A)  (* the handler returned *)
| EvExit (d : nat)                       (* dispatcher [d] returned *)
| EvTake (wake : Z).                     (* [rlimit.Take()] returned at [wake] *)
Arguments EvMake {A} c.
Arguments EvGo {A} d.
Arguments EvSetRunning {A} v.
Arguments EvClose {A} c.
Arguments EvOnStart {A} r.
Arguments EvOnStop {A} r.
Arguments EvAppend {A} e.
Arguments EvCancel {A} ctx.
Arguments EvNext {A} d e.
Arguments EvDrop {A} d e.
Arguments EvLive {A} d e.
Arguments EvCall {A} d e.
Arguments EvReturn {A} d e.
Arguments EvExit {A} d.
Arguments EvTake {A} wake.

(** The service together with everything around it. *)
Record World (A U : Type) : Type := mkWorld {
  bas : BaseService A;          (* the struct *)
  usr : U;                      (* state of the embedding service *)
  chans : list bool;            (* channel heap: [true] = closed *)
  cancelled : list Context;     (* contexts whose [Done()] is closed *)
  procs : list (Pc A);          (* the goroutines spawned by [Start] *)
  events : list (Event A)       (* most recent first *)
}.
Arguments mkWorld {A U} bas usr chans cancelled procs events.
Arguments bas {A U} w.
Arguments usr {A U} w.
Arguments chans {A U} w.
Arguments cancelled {A U} w.
Arguments procs {A U} w.
Arguments events {A U} w.

(** The events in the order they happened. *)
Definition history {A U} (w : World A U) : list (Event A) := reverse (events w).

(** ** A state monad with panics *)

Inductive Outcome (W R : Type) : Type :=
| Ret (r : R) (w : W)
| Panic.
Arguments Ret {W R} r w.
Arguments Panic {W R}.

Definition M (W R : Type) : Type := W → Outcome W R.

#[export] Instance M_ret {W} : MRet (M W) := λ R r w, Ret r w.
#[export] Instance M_bind {W} : MBind (M W) := λ R1 R2 f m w,
  match m w with
  | Ret r w' => f r w'
  | Panic => Panic
  end.

Section BaseService.
Context {A U : Type} `{srv : Service A U}.

#[local] Abbreviation World := (World A U).
#[local] Abbreviation M := (M World).

(** *** Field access *)

Definition with_bas (f : BaseService A → BaseService A) (w : World) : World :=
  mkWorld (f (bas w)) (usr w) (chans w) (cancelled w) (procs w) (events w).
Definition with_usr (u : U) (w : World) : World :=
  mkWorld (bas w) u (chans w) (cancelled w) (procs w) (events w).
Definition with_chans (h : list bool) (w : World) : World :=
  mkWorld (bas w) (usr w) h (cancelled w) (procs w) (events w).
Definition with_cancelled (l : list Context) (w : World) : World :=
  mkWorld (bas w) (usr w) (chans w) l (procs w) (events w).
Definition with_procs (ps : list (Pc A)) (w : World) : World :=
  mkWorld (bas w) (usr w) (chans w) (cancelled w) ps (events w).
Definition emit (ev : Event A) (w : World) : World :=
  mkWorld (bas w) (usr w) (chans w) (cancelled w) (procs w) (ev :: events w).

Definition set_runs (v : bool) (b : BaseService A) : BaseService A :=
  mkBase (name b) v (queue b) (done b) (rlimit b).
Definition set_queue (q : list (queuedCall A)) (b : BaseService A) : BaseService A :=
  mkBase (name b) (runs b) q (done b) (rlimit b).
Definition set_done (c : option chan) (b : BaseService A) : BaseService A :=
  mkBase (name b) (runs b) (queue b) c (rlimit b).
Definition set_rlimit (l : option Limiter) (b : BaseService A) : BaseService A :=
  mkBase (name b) (runs b) (queue b) (done b) l.

Definition get {R} (f : World → R) : M R := λ w, Ret (f w) w.
Definition modify (f : World → World) : M unit := λ w, Ret tt (f w).

(** *** Channels *)

(** [make(chan struct{})]: a fresh, open channel. *)
Definition make_chan : M chan := λ w,
  let c := length (chans w) in
  Ret c (emit (EvMake c) (with_chans (chans w ++ [false]) w)).

(** [close(c)] panics on a nil channel and on a closed channel. *)
Definition close_chan (oc : option chan) : M unit := λ w,
  match oc with
  | None => Panic
  | Some c =>
      match chans w !! c with
      | Some false => Ret tt (emit (EvClose c) (with_chans (<[c := true]> (chans w)) w))
      | _ => Panic
      end
  end.

(** [<-c] can proceed: the service's channels carry no values, so a receive
    completes only on a closed channel, and never on nil. *)
Definition recv_ready (h : list bool) (oc : option chan) : bool :=
  match oc with
  | None => false
  | Some c => default false (h !! c)
  end.

(** [<-ctx.Done()] can proceed. *)
Definition ctx_done (w : World) (ctx : Context) : bool :=
  bool_decide (ctx ∈ cancelled w).

(** *** The queue

    The FIFO of github.com/caffix/queue is not part of this repository.  The
    service uses [Append], [Len], [Signal] and [Process]; [Process] calls
    its callback on what [Next] returns until the queue is empty. *)

(** Modelled from the spec: [Append] puts the element at the back. *)
Definition queue_Append (e : queuedCall A) : M unit :=
  modify (λ w, emit (EvAppend e) (with_bas (set_queue (queue (bas w) ++ [e])) w)).

(** Modelled from the spec: [Len] is the current queue depth. *)
Definition queue_Len (q : list (queuedCall A)) : nat := length q.

(** Modelled from the spec: a receive from [Signal()] can proceed when the
    queue is non-empty ("wait until non-empty"). *)
Definition queue_Signal_ready (q : list (queuedCall A)) : bool :=
  negb (bool_decide (length q = 0%nat)).

(** Modelled from the spec: [Next] removes and returns the element at the
    front, if there is one. *)
Definition queue_Next (q : list (queuedCall A))
  : option (queuedCall A * list (queuedCall A)) :=
  match q with
  | [] => None
  | e :: q' => Some (e, q')
  end.

(** ** The methods of [BaseService] *)

(** [NewBaseService(srv, name)]: no channel is made here. *)
Definition NewBaseService (u : U) (nm : string) : World :=
  mkWorld (mkBase nm false [] None None) u [] [] [] [].

(** [bas.running()] *)
Definition running : M bool := get (λ w, runs (bas w)).

(** [bas.setRunning(val)] *)
Definition setRunning (val : bool) : M unit :=
  modify (λ w, emit (EvSetRunning val) (with_bas (set_runs val) w)).

(** [go bas.processRequests()]: a new goroutine at the top of its loop. *)
Definition go_processRequests : M unit :=
  modify (λ w, emit (EvGo (length (procs w))) (with_procs (procs w ++ [PcLoop]) w)).

(** [bas.service.OnStart()] and [bas.service.OnStop()]: the hooks of the
    embedding service. *)
Definition call_OnStart : M (option error) := λ w,
  let '(u, r) := OnStart (usr w) in Ret r (emit (EvOnStart r) (with_usr u w)).

Definition call_OnStop : M (option error) := λ w,
  let '(u, r) := OnStop (usr w) in Ret r (emit (EvOnStop r) (with_usr u w)).

(** [func (bas *BaseService) Start() error] *)
Definition Start : M (option error) :=
  r ← running;
  if r : bool then
    nm ← get (λ w, name (bas w));
    mret (Some (nm +:+ " has already been started")%string)
  else
    c ← make_chan;
    modify (with_bas (set_done (Some c)));;
    go_processRequests;;
    setRunning true;;
    call_OnStart.

(** [func (bas *BaseService) Stop() error] *)
Definition Stop : M (option error) :=
  r ← running;
  if negb r then
    nm ← get (λ w, name (bas w));
    mret (Some (nm +:+ " is already stopped")%string)
  else
    setRunning false;;
    c ← get (λ w, done (bas w));
    close_chan c;;
    call_OnStop.

(** [func (bas *BaseService) Len() int] *)
Definition Len : M nat := get (λ w, queue_Len (queue (bas w))).

(** [func (bas *BaseService) queueRequest(fn interface{}, args ...Args)] *)
Definition queueRequest (fn : Fn) (args : list (Args A)) : M unit :=
  let passedArgs := foldl (λ acc arg, acc ++ [arg]) [] args in
  queue_Append {| Func := fn; Args' := passedArgs |}.

(** The [context.Context] handed to [Request], which may be the nil
    interface value ([None]), as the [Args] it is passed on as. *)
Definition ctx_arg (ctx : option Context) : Args A :=
  match ctx with
  | Some c => ArgCtx c
  | None => ArgNil
  end.

(** [func (bas *BaseService) Request(ctx context.Context, args Args)] *)
Definition Request (ctx : option Context) (args : Args A) : M unit :=
  r ← running;
  if r : bool then queueRequest FnOnRequest [ctx_arg ctx; args]
  else mret tt.

(** [func (bas *BaseService) Done() <-chan struct{}] *)
Definition Done (w : World) : option chan := done (bas w).

(** [func (bas *BaseService) SetRateLimit(persec int)] *)
Definition SetRateLimit (persec : Z) : M unit :=
  if bool_decide (persec = 0%Z) then modify (with_bas (set_rlimit None))
  else modify (with_bas (set_rlimit (Some (ratelimit_New persec)))).

(** [func (bas *BaseService) CheckRateLimit()], called at instant [now];
    the result is the instant at which the caller resumes. *)
Definition CheckRateLimit (now : Z) : M Z :=
  rl ← get (λ w, rlimit (bas w));
  match rl with
  | Some l =>
      let '(l', wake) := Take now l in
      modify (λ w, emit (EvTake wake) (with_bas (set_rlimit (Some l')) w));;
      mret wake
  | None => mret now
  end.

(** ** The dispatcher goroutine, statement by statement *)

(** The statements of [processRequests] at which a goroutine can be
    scheduled. *)
Inductive Act : Type :=
| ActEval        (* enter the outer select: evaluate [bas.Done()] *)
| ActRecvDone    (* outer select, [case <-bas.Done()]: return *)
| ActRecvSignal  (* outer select, [case <-bas.queue.Signal()]: call [Process] *)
| ActNext        (* [Process]: [Next()], then [each] or back to the loop *)
| ActPoll        (* the select of [each] *)
| ActCall        (* [e.Func.Call(e.Args)] is entered *)
| ActReturn.     (* the handler returns *)

#[export] Instance Act_eq_dec : EqDecision Act.
Proof. solve_decision. Defined.

Definition set_pc (d : nat) (pc : Pc A) (w : World) : World :=
  with_procs (<[d := pc]> (procs w)) w.

(** [e.Func.Call(e.Args)] on the bound [OnRequest]: the reflective call
    needs exactly a context and one more argument, and refuses the zero
    [reflect.Value]; [None] is the call that panics. *)
Definition call_args (e : queuedCall A) : option (Context * Args A) :=
  match Args' e with
  | [ArgCtx ctx; ArgNil] => None
  | [ArgCtx ctx; a] => Some (ctx, a)
  | _ => None
  end.

(** Does statement [a] of dispatcher [d] panic?  In [each],
    [e.Args[0].Interface().(context.Context)] panics on the zero
    [reflect.Value] of a nil context (and would on a missing or non-context
    first argument); [e.Func.Call(e.Args)] panics on the zero
    [reflect.Value] of a nil argument (and would on a wrong number of
    arguments). *)
Definition proc_panics (d : nat) (a : Act) (w : World) : bool :=
  match procs w !! d, a with
  | Some (PcEach e), ActPoll =>
      match Args' e with
      | ArgCtx _ :: _ => false
      | _ => true
      end
  | Some (PcCall e), ActCall =>
      match call_args e with
      | Some _ => false
      | None => true
      end
  | _, _ => false
  end.

(** One statement of dispatcher [d]; [None] when [d] is not at that
    statement, when the statement cannot proceed (a receive that blocks),
    and when it panics ([proc_panics]): nothing recovers the panic of a
    goroutine, it ends the process and there is no next world. *)
Definition proc_step (d : nat) (a : Act) (w : World) : option World :=
  match procs w !! d with
  | None => None
  | Some pc =>
      match a, pc with
      | ActEval, PcLoop =>
          Some (set_pc d (PcSelect (Done w)) w)
      | ActRecvDone, PcSelect c =>
          if recv_ready (chans w) c
          then Some (emit (EvExit d) (set_pc d PcExit w))
          else None
      | ActRecvSignal, PcSelect c =>
          if queue_Signal_ready (queue (bas w))
          then Some (set_pc d PcNext w)
          else None
      | ActNext, PcNext =>
          match queue_Next (queue (bas w)) with
          | None => Some (set_pc d PcLoop w)
          | Some (e, q') =>
              Some (emit (EvNext d e) (set_pc d (PcEach e) (with_bas (set_queue q') w)))
          end
      | ActPoll, PcEach e =>
          match Args' e with
          | ArgCtx ctx :: _ =>
              if ctx_done w ctx || recv_ready (chans w) (Done w)
              then Some (emit (EvDrop d e) (set_pc d PcNext w))
              else Some (emit (EvLive d e) (set_pc d (PcCall e) w))
          | _ => None
          end
      | ActCall, PcCall e =>
          match call_args e with
          | Some _ => Some (emit (EvCall d e) (set_pc d (PcHandler e) w))
          | None => None
          end
      | ActReturn, PcHandler e =>
          match call_args e with
          | Some (ctx, x) =>
              Some (emit (EvReturn d e)
                      (set_pc d PcNext (with_usr (OnRequest ctx x (usr w)) w)))
          | None => None
          end
      | _, _ => None
      end
  end.

(** ** Executions *)

(** What can happen next: a method call by the caller, taken as a whole,
    the cancellation or expiry of a context, or one statement of a
    dispatcher.  ([Start] and [Stop] are taken apart in [istep] below.) *)
Inductive Label : Type :=
| CallStart
| CallStop
| CallRequest (ctx : option Context) (args : Args A)
| CallSetRateLimit (persec : Z)
| CallCheckRateLimit (now : Z)
| Cancel (ctx : Context)
| Go (d : nat) (a : Act).

Definition returned {R} (o : Outcome World R) : option World :=
  match o with
  | Ret _ w => Some w
  | Panic => None
  end.

Definition step (l : Label) (w : World) : option World :=
  match l with
  | CallStart => returned (Start w)
  | CallStop => returned (Stop w)
  | CallRequest ctx args => returned (Request ctx args w)
  | CallSetRateLimit persec => returned (SetRateLimit persec w)
  | CallCheckRateLimit now => returned (CheckRateLimit now w)
  | Cancel ctx => Some (emit (EvCancel ctx) (with_cancelled (ctx :: cancelled w) w))
  | Go d a => proc_step d a w
  end.

Fixpoint run (sched : list Label) (w : World) : option World :=
  match sched with
  | [] => Some w
  | l :: sched' =>
      match step l w with
      | Some w' => run sched' w'
      | None => None
      end
  end.

(** A world that some execution of a freshly constructed service reaches. *)
Definition reachable (w : World) : Prop :=
  ∃ u nm sched, run sched (NewBaseService u nm) = Some w.

(** *** Observations on a world *)

(** The request [Request(ctx, args)] puts on the queue. *)
Definition request (ctx : option Context) (args : Args A) : queuedCall A :=
  {| Func := FnOnRequest; Args' := [ctx_arg ctx; args] |}.

(** The world a [Start] that passes the lifecycle check leaves behind. *)
Definition started_world (w : World) : World :=
  let c := length (chans w) in
  let d := length (procs w) in
  let '(u, r) := OnStart (usr w) in
  mkWorld (mkBase (name (bas w)) true (queue (bas w)) (Some c) (rlimit (bas w)))
          u (chans w ++ [false]) (cancelled w) (procs w ++ [PcLoop])
          (EvOnStart r :: EvSetRunning true :: EvGo d :: EvMake c :: events w).

(** The world a [Stop] that passes the lifecycle check leaves behind when
    [done] holds the open channel [c]. *)
Definition stopped_world (c : chan) (w : World) : World :=
  let '(u, r) := OnStop (usr w) in
  mkWorld (mkBase (name (bas w)) false (queue (bas w)) (done (bas w)) (rlimit (bas w)))
          u (<[c := true]> (chans w)) (cancelled w) (procs w)
          (EvOnStop r :: EvClose c :: EvSetRunning false :: events w).

(** The handler invocations, the appended requests and the closed channels
    of a list of events, in the order of the list. *)
Definition calls_of (evs : list (Event A)) : list (queuedCall A) :=
  omap (λ ev, match ev with EvCall _ e => Some e | _ => None end) evs.

Definition appends_of (evs : list (Event A)) : list (queuedCall A) :=
  omap (λ ev, match ev with EvAppend e => Some e | _ => None end) evs.

Definition closes_of (evs : list (Event A)) : list chan :=
  omap (λ ev, match ev with EvClose c => Some c | _ => None end) evs.

Definition nexts_of (evs : list (Event A)) : list (queuedCall A) :=
  omap (λ ev, match ev with EvNext _ e => Some e | _ => None end) evs.

Definition gos_of (evs : list (Event A)) : list nat :=
  omap (λ ev, match ev with EvGo d => Some d | _ => None end) evs.

Definition is_handling (pc : Pc A) : bool :=
  match pc with
  | PcHandler _ => true
  | _ => false
  end.

(** The number of handler invocations in flight. *)
Definition in_flight (w : World) : nat := length (filter is_handling (procs w)).

Definition is_start (l : Label) : bool :=
  match l with
  | CallStart => true
  | _ => false
  end.

Definition is_set_rate_limit (l : Label) : bool :=
  match l with
  | CallSetRateLimit _ => true
  | _ => false
  end.


(** Is the DoneSignal allocated and open, given the events so far, most
    recent first?  It is from the [make] of a [Start] up to the [close] of
    the [Stop] that follows. *)
Fixpoint done_open (past : list (Event A)) : bool :=
  match past with
  | [] => false
  | EvMake _ :: _ => true
  | EvClose _ :: _ => false
  | _ :: older => done_open older
  end.

(** The dispatcher an event belongs to, if any. *)
Definition ev_proc (ev : Event A) : option nat :=
  match ev with
  | EvNext d _ | EvDrop d _ | EvLive d _ | EvCall d _ | EvReturn d _ | EvExit d => Some d
  | _ => None
  end.

(** Dispatcher [d] passed the liveness check of [e] while the DoneSignal
    was open and has done nothing since ([past] is most recent first). *)
Definition checked_before (d : nat) (e : queuedCall A) (past : list (Event A)) : Prop :=
  ∃ mid older,
    past = mid ++ EvLive d e :: older ∧
    done_open older = true ∧
    Forall (λ ev, ev_proc ev ≠ Some d) mid.

(** Every handler invocation of a list of events follows its liveness check. *)
Definition calls_checked (past : list (Event A)) : Prop :=
  ∀ later d e earlier,
    past = later ++ EvCall d e :: earlier → checked_before d e earlier.

(** Every liveness check of a list of events was passed while the
    DoneSignal was open. *)
Definition lives_while_open (past : list (Event A)) : Prop :=
  ∀ later d e earlier,
    past = later ++ EvLive d e :: earlier → done_open earlier = true.


(** The channels made so far, most recent first. *)
Definition makes_of (evs : list (Event A)) : list chan :=
  omap (λ ev, match ev with EvMake c => Some c | _ => None end) evs.

(** ** [Start] and [Stop], statement by statement

    [step] takes every call of the caller as one step, which is what a
    client sees that issues its calls one after the other and looks at the
    service in between.  The dispatchers, however, run while [Start] and
    [Stop] are under way: the statements of these two methods share no lock,
    and the dispatchers read [bas.done] without one.  Here the goroutine
    that calls [Start] and [Stop] has a program counter of its own and the
    two methods advance one statement at a time, interleaved with the
    dispatchers and with cancellations; a statement is atomic, and the
    goroutines see each other's writes in the order of the interleaving.
    One goroutine issues the method calls, as in the tests: [Request],
    [SetRateLimit] and [CheckRateLimit] are called between two calls of
    [Start] and [Stop]; a dispatcher that runs between the check and the
    append of a [Request] neither reads nor writes the flag and could as
    well have run before the call. *)

(** Where the goroutine that calls [Start] and [Stop] stands. *)
Inductive Caller : Type :=
| Idle           (* between two calls *)
| StartChecked   (* in [Start]: [bas.running()] was false *)
| StartMade      (* in [Start]: [bas.done = make(chan struct{})] is done *)
| StartSpawned   (* in [Start]: [go bas.processRequests()] is done *)
| StartSet       (* in [Start]: [bas.setRunning(true)] is done, the hook is next *)
| StopChecked    (* in [Stop]: [bas.running()] was true *)
| StopSet        (* in [Stop]: [bas.setRunning(false)] is done *)
| StopClosed.    (* in [Stop]: [close(bas.done)] is done, the hook is next *)

(** One statement [m] of the caller, which then stands at [c']. *)
Definition stmt {R} (m : M R) (c' : Caller) (w : World) : option (World * Caller) :=
  match m w with
  | Ret _ w' => Some (w', c')
  | Panic => None
  end.

(** The next statement of the call in progress. *)
Definition caller_step (c : Caller) (w : World) : option (World * Caller) :=
  match c with
  | Idle => None
  | StartChecked =>
      stmt (ch ← make_chan; modify (with_bas (set_done (Some ch)))) StartMade w
  | StartMade => stmt go_processRequests StartSpawned w
  | StartSpawned => stmt (setRunning true) StartSet w
  | StartSet => stmt call_OnStart Idle w
  | StopChecked => stmt (setRunning false) StopSet w
  | StopSet => stmt (ch ← get (λ w, done (bas w)); close_chan ch) StopClosed w
  | StopClosed => stmt call_OnStop Idle w
  end.

Inductive ILabel : Type :=
| EnterStart        (* the caller calls [Start]: [if bas.running()] *)
| EnterStop         (* the caller calls [Stop]: [if !bas.running()] *)
| Stmt              (* the next statement of the call in progress *)
| Other (l : Label).  (* any other step, as in [step] *)

(** One step of the interleaved system.  A call of [Start] on a running
    service and a call of [Stop] on a service that is not running return
    their error at once.  Cancellations and dispatchers move at any time,
    the other method calls when no [Start] or [Stop] is in progress. *)
Definition istep (il : ILabel) (s : World * Caller) : option (World * Caller) :=
  let '(w, c) := s in
  match il with
  | EnterStart =>
      match c with
      | Idle => Some (w, if runs (bas w) then Idle else StartChecked)
      | _ => None
      end
  | EnterStop =>
      match c with
      | Idle => Some (w, if runs (bas w) then StopChecked else Idle)
      | _ => None
      end
  | Stmt => caller_step c w
  | Other l =>
      match l, c with
      | CallStart, _ | CallStop, _ => None
      | Cancel _, _ | Go _ _, _ | _, Idle =>
          match step l w with
          | Some w' => Some (w', c)
          | None => None
          end
      | _, _ => None
      end
  end.

Fixpoint irun (sched : list ILabel) (s : World * Caller) : option (World * Caller) :=
  match sched with
  | [] => Some s
  | il :: sched' =>
      match istep il s with
      | Some s' => irun sched' s'
      | None => None
      end
  end.

(** What some interleaved execution of a freshly constructed service
    reaches. *)
Definition ireachable (s : World * Caller) : Prop :=
  ∃ u nm sched, irun sched (NewBaseService u nm, Idle) = Some s.

(** A step of [step] as steps of the interleaved system: the statements of
    a call one after the other, nothing in between. *)
Definition refine (l : Label) (w : World) : list ILabel :=
  match l with
  | CallStart => if runs (bas w) then [EnterStart] else [EnterStart; Stmt; Stmt; Stmt; Stmt]
  | CallStop => if runs (bas w) then [EnterStop; Stmt; Stmt; Stmt] else [EnterStop]
  | _ => [Other l]
  end.

(** The caller stands where the flag says "not running" although the
    DoneSignal is open: after the [make] of [Start] and before its
    [setRunning(true)], and after the [setRunning(false)] of [Stop] and
    before its [close]. *)
Definition in_gap (c : Caller) : bool :=
  match c with
  | StartMade | StartSpawned | StopSet => true
  | _ => false
  end.

(** What the flag is while the caller stands inside a call. *)
Definition runs_at (c : Caller) (r : bool) : Prop :=
  match c with
  | Idle => True
  | StartSet | StopChecked => r = true
  | _ => r = false
  end.

(** *** One dispatcher draining the queue on its own *)

(** Would the select of [each] take the [default] branch for [e] now? *)
Definition live (w : World) (e : queuedCall A) : bool :=
  match Args' e with
  | ArgCtx ctx :: _ => negb (ctx_done w ctx || recv_ready (chans w) (Done w))
  | _ => false
  end.

(** The statements of [bas.queue.Process(each)] run by dispatcher [d] on
    the queue [q] while nothing else happens: [Next] and the select for
    every element, the call and its return for the live ones, and the last
    [Next] that finds the queue empty. *)
Fixpoint Process_sched (d : nat) (alive : queuedCall A → bool)
    (q : list (queuedCall A)) : list Label :=
  match q with
  | [] => [Go d ActNext]
  | e :: q' =>
      Go d ActNext :: Go d ActPoll ::
        (if alive e then [Go d ActCall; Go d ActReturn] else []) ++
        Process_sched d alive q'
  end.

(** The effect of the handlers of a list of requests on the embedding
    service, in order. *)
Definition handle_all (es : list (queuedCall A)) (u : U) : U :=
  foldl (λ u e, match call_args e with
                | Some (ctx, x) => OnRequest ctx x u
                | None => u
                end) u es.

(** *** Invariants of the lifecycle *)

(** No [Start] has passed its check yet. *)
Definition never_started (w : World) : Prop :=
  done (bas w) = None ∧ runs (bas w) = false ∧ procs w = [] ∧ chans w = [].

(** The flag and the channel agree: before the first [Start] there is no
    channel and no dispatcher; afterwards [done] is an allocated channel
    that is open exactly while the service runs. *)
Definition lifecycle_ok (w : World) : Prop :=
  match done (bas w) with
  | None => runs (bas w) = false ∧ procs w = []
  | Some c => chans w !! c = Some (negb (runs (bas w)))
  end.

(** Every channel was closed at most once, and a channel that was closed
    is closed. *)
Definition closes_ok (w : World) : Prop :=
  NoDup (closes_of (events w)) ∧
  ∀ c, c ∈ closes_of (events w) → chans w !! c = Some true.

(** *** Invariants of the reflective call *)

(** A queued call as [Request] builds it. *)
Definition well_formed (e : queuedCall A) : Prop :=
  ∃ ctx args, e = request ctx args.

(** What a dispatcher holds: anything that was queued before the select
    of [each], a request with a context after it, and one with a context
    and an argument inside the handler. *)
Definition pc_ok (pc : Pc A) : Prop :=
  match pc with
  | PcEach e => well_formed e
  | PcCall e => ∃ ctx args, e = request (Some ctx) args
  | PcHandler e => ∃ ctx args, e = request (Some ctx) args ∧ args ≠ ArgNil
  | _ => True
  end.

(** The request a dispatcher holds, if any. *)
Definition held (pc : Pc A) : option (queuedCall A) :=
  match pc with
  | PcEach e | PcCall e | PcHandler e => Some e
  | _ => None
  end.

(** Every queued call, on the queue or held by a dispatcher, was built by
    [Request]. *)
Definition built_ok (w : World) : Prop :=
  Forall well_formed (queue (bas w)) ∧ Forall pc_ok (procs w).

(** *** Invariants of the queue *)

(** The request a lone dispatcher holds between [Next] and the call. *)
Definition pending (ps : list (Pc A)) : list (queuedCall A) :=
  match ps with
  | [PcEach e] | [PcCall e] => [e]
  | _ => []
  end.

(** What was appended is what was dequeued followed by what is queued, and
    as long as there is at most one dispatcher the handler invocations
    follow the order of dequeuing (event lists are most recent first). *)
Definition fifo_ok (w : World) : Prop :=
  appends_of (events w) = reverse (queue (bas w)) ++ nexts_of (events w) ∧
  (length (procs w) ≤ 1 →
   pending (procs w) ++ calls_of (events w) `sublist_of` nexts_of (events w)).

(** *** Invariants of the interleaved system *)

(** [bas.done] is the channel made last; it is open exactly from its [make]
    to its [close]; before the first [make] it is nil and there is no
    dispatcher; and the flag follows the DoneSignal but for the two gaps. *)
Definition signal_ok (s : World * Caller) : Prop :=
  let '(w, c) := s in
  done (bas w) = head (makes_of (events w)) ∧
  match done (bas w) with
  | None => done_open (events w) = false ∧ procs w = []
  | Some ch => chans w !! ch = Some (negb (done_open (events w)))
  end ∧
  done_open (events w) = runs (bas w) || in_gap c ∧
  runs_at c (runs (bas w)).

(** A dispatcher about to call the handler has passed the check, so has
    every handler invocation so far, and every check was passed while the
    DoneSignal was open. *)
Definition checks_ok (w : World) : Prop :=
  (∀ d e, procs w !! d = Some (PcCall e) → checked_before d e (events w)) ∧
  calls_checked (events w) ∧
  lives_while_open (events w).

End BaseService.

(** ** Implementations of the interface *)

(** The hooks of [BaseService] itself, which an embedding service inherits
    unless it overrides them: [OnStart] and [OnStop] return nil, [OnRequest]
    does nothing. *)
#[export] Instance BaseService_Service : Service string unit := {|
  OnStart u := (u, None);
  OnStop u := (u, None);
  OnRequest ctx args u := u
|}.

(** *** The test service of the repository's test file *)

(** [type testService struct { BaseService; started, stopped bool;
    next chan string }]; the values sent on [next] are collected. *)
Record testService : Type := mkTest {
  started : bool;
  stopped : bool;
  next : list string
}.

(** [newTestService(next)]; in [OnRequest] below the call of
    [CheckRateLimit] that follows the send only delays the handler and is
    not represented. *)
Definition newTestService : testService :=
  {| started := false; stopped := true; next := [] |}.

#[export] Instance testService_Service : Service string testService := {|
  OnStart t := ({| started := true; stopped := false; next := next t |}, None);
  OnStop t := ({| started := false; stopped := true; next := next t |}, None);
  OnRequest ctx args t :=
    match args with
    | ArgVal r => {| started := started t; stopped := stopped t; next := next t ++ [r] |}
    | _ => t
    end
|}.

(** *** A service whose start hook fails

    An embedding service that overrides [OnStart] with a hook that returns
    an error and inherits the other hooks; it exercises the error path of
    [Start]. *)
Inductive failingService : Type := FailingService.

#[export] Instance failingService_Service : Service string failingService := {|
  OnStart t := (t, Some "start hook failed"%string);
  OnStop t := (t, None);
  OnRequest ctx args t := t
|}.

Definition testWorld : World string testService := NewBaseService newTestService "Test".
Definition failingWorld : World string failingService := NewBaseService FailingService "Failing".

(** ** Executions of the test service *)

(** The world an execution ends in (the starting world if it gets stuck). *)
Definition world_after {A U} `{Service A U} (sched : list (Label (A:=A)))
    (w : World A U) : World A U :=
  default w (run sched w).

(** The state an interleaved execution ends in (the starting state if it
    gets stuck). *)
Definition iworld_after {A U} `{Service A U} (sched : list (ILabel (A:=A)))
    (s : World A U * Caller) : World A U * Caller :=
  default s (irun sched s).

Definition str (s : string) : Args string := ArgVal s.

(** One dispatcher takes a request from the select of the loop to the
    select of [each]. *)
Definition dequeue (d : nat) : list (Label (A:=string)) :=
  [Go d ActEval; Go d ActRecvSignal; Go d ActNext].


(** Scenario E of the specification, up to the moment the dispatcher has
    been woken: three requests, the context of the first one cancelled. *)
Definition cancelled_first : list (Label (A:=string)) :=
  [CallStart; CallRequest (Some 1) (str "str1"); CallRequest (Some 0) (str "str2"); Cancel 1;
   CallRequest (Some 0) (str "str3"); Go 0 ActEval; Go 0 ActRecvSignal].


(** [Start]; [Request(ctx, "a")], whose handler is entered and does not
    return yet (the test handler blocks on its channel); [Stop]; [Start]
    again; [Request(ctx, "b")], which the second dispatcher picks up. *)
Definition restart_while_handling : list (Label (A:=string)) :=
  [CallStart; CallRequest (Some 0) (str "a")] ++ dequeue 0 ++
  [Go 0 ActPoll; Go 0 ActCall; CallStop; CallStart; CallRequest (Some 0) (str "b")] ++
  dequeue 1 ++ [Go 1 ActPoll; Go 1 ActCall].

(** A restart overtaken by the old dispatcher.  [Start]; [Request(ctx, "a")],
    whose handler is entered and does not return yet; [Request(ctx, "b")],
    which stays on the queue; [Stop] runs to completion; the next [Start]
    passes its check and makes the new DoneSignal; before it goes on, the
    handler of "a" returns and the old dispatcher dequeues "b", finds the
    new DoneSignal open and calls the handler. *)
Definition restart_overtaken : list (ILabel (A:=string)) :=
  [EnterStart; Stmt; Stmt; Stmt; Stmt;
   Other (CallRequest (Some 0) (str "a"));
   Other (Go 0 ActEval); Other (Go 0 ActRecvSignal); Other (Go 0 ActNext);
   Other (Go 0 ActPoll); Other (Go 0 ActCall);
   Other (CallRequest (Some 0) (str "b"));
   EnterStop; Stmt; Stmt; Stmt;
   EnterStart; Stmt;
   Other (Go 0 ActReturn); Other (Go 0 ActNext); Other (Go 0 ActPoll);
   Other (Go 0 ActCall)].

(** The test of [Len]: three requests, of which the dispatcher has taken
    the first into its handler. *)
Definition three_requests_one_taken : list (Label (A:=string)) :=
  [CallStart; CallRequest (Some 0) (str "str1"); CallRequest (Some 0) (str "str2");
   CallRequest (Some 0) (str "str3")] ++ dequeue 0 ++ [Go 0 ActPoll; Go 0 ActCall].

(** The context of the second request is cancelled while the first is
    being handled. *)
Definition cancel_while_handling : list (Label (A:=string)) :=
  [CallStart; CallRequest (Some 1) (str "str1"); CallRequest (Some 2) (str "str2")] ++ dequeue 0 ++
  [Go 0 ActPoll; Go 0 ActCall; Cancel 2; Go 0 ActReturn; Go 0 ActNext; Go 0 ActPoll;
   Go 0 ActNext].

(** As [restart_while_handling] up to the second [Start]; then the first
    handler returns and the first dispatcher, which finds the new DoneSignal
    open, goes back to waiting.  [Request(ctx, "b")] is dequeued and checked
    by the first dispatcher, [Request(ctx, "c")] by the second, which calls
    its handler first. *)
Definition restart_then_race : list (Label (A:=string)) :=
  [CallStart; CallRequest (Some 0) (str "a")] ++ dequeue 0 ++
  [Go 0 ActPoll; Go 0 ActCall; CallStop; CallStart;
   Go 0 ActReturn; Go 0 ActNext; Go 0 ActEval;
   CallRequest (Some 0) (str "b"); Go 0 ActRecvSignal; Go 0 ActNext; Go 0 ActPoll;
   CallRequest (Some 0) (str "c")] ++ dequeue 1 ++
  [Go 1 ActPoll; Go 1 ActCall; Go 0 ActCall].

(** * Further observations *)

Section Observations.
Context {A U : Type} `{srv : Service A U}.

#[local] Abbreviation World := (World A U).

(** More projections of a list of events. *)
Definition cancels_of (evs : list (Event A)) : list Context :=
  omap (λ ev, match ev with EvCancel ctx => Some ctx | _ => None end) evs.

Definition drops_of (evs : list (Event A)) : list (queuedCall A) :=
  omap (λ ev, match ev with EvDrop _ e => Some e | _ => None end) evs.

Definition lives_of (evs : list (Event A)) : list (queuedCall A) :=
  omap (λ ev, match ev with EvLive _ e => Some e | _ => None end) evs.

Definition returns_of (evs : list (Event A)) : list (queuedCall A) :=
  omap (λ ev, match ev with EvReturn _ e => Some e | _ => None end) evs.

Definition is_each (pc : Pc A) : bool :=
  match pc with
  | PcEach _ => true
  | _ => false
  end.

Definition is_calling (pc : Pc A) : bool :=
  match pc with
  | PcCall _ => true
  | _ => false
  end.

(** The dispatchers that hold a dequeued request before the select of
    [each], and those between the select and the call. *)
Definition checking (w : World) : nat := length (filter is_each (procs w)).
Definition calling (w : World) : nat := length (filter is_calling (procs w)).

(** The shape of the channel heap after [n] accepted calls of [Start]: the
    channels of the earlier ones are closed, the newest is open exactly
    while the service runs. *)
Definition heap_after (n : nat) (running : bool) : list bool :=
  match n with
  | 0 => []
  | S m => replicate m true ++ [negb running]
  end.

Definition done_after (n : nat) : option chan :=
  match n with
  | 0 => None
  | S m => Some m
  end.

(** No request passes the liveness check after the cancellation of its
    context ([past] is most recent first). *)
Definition lives_uncancelled (past : list (Event A)) : Prop :=
  ∀ later d e ctx rest earlier,
    past = later ++ EvLive d e :: earlier →
    Args' e = ArgCtx ctx :: rest →
    ctx ∉ cancels_of earlier.

(** A caller issuing [Request] for each element of a list, in order. *)
Definition requests (reqs : list (option Context * Args A)) : list (Label (A:=A)) :=
  map (λ p, CallRequest p.1 p.2) reqs.

(** [CheckRateLimit] called at each of the instants [nows], one call after
    the other; the instants at which the calls return. *)
Fixpoint CheckRateLimit_all (nows : list Z) (w : World) : list Z * World :=
  match nows with
  | [] => ([], w)
  | now :: nows' =>
      match CheckRateLimit now w with
      | Ret wake w' =>
          let '(wakes, w'') := CheckRateLimit_all nows' w' in (wake :: wakes, w'')
      | Panic => ([], w)
      end
  end.

(** Are consecutive instants at least [p] apart? *)
Fixpoint spaced (p : Z) (ts : list Z) : Prop :=
  match ts with
  | t1 :: ((t2 :: _) as ts') => (t1 + p ≤ t2)%Z ∧ spaced p ts'
  | _ => True
  end.

End Observations.

(** * The channel-based [BaseService] of base.go

    The first [BaseService] of base.go has no queue: the embedding service
    is handed its requests on the [Input()] channel and answers on
    [Output()].  Its three channels are made by the constructor.  The hooks
    are [OnStart] and [OnStop]; a hook may panic. *)

Module ChannelService.

(** [type BaseService struct] *)
Record BaseService : Type := mkBase {
  name : string;
  runs : bool;
  done : chan;
  input : chan;
  output : chan;
  rlimit : option Limiter
}.

(** The hooks of the [Service] interface of service.go that [BaseService]
    calls back. *)
Class Service (U : Type) : Type := {
  OnStart : U → Outcome U (option error);
  OnStop : U → Outcome U (option error)
}.

Record World (U : Type) : Type := mkWorld {
  bas : BaseService;       (* the struct *)
  usr : U;                 (* state of the embedding service *)
  chans : list bool        (* channel heap: [true] = closed *)
}.
Arguments mkWorld {U} bas usr chans.
Arguments bas {U} w.
Arguments usr {U} w.
Arguments chans {U} w.

Section Methods.
Context {U : Type} `{srv : Service U}.

#[local] Abbreviation World := (World U).
#[local] Abbreviation M := (M World).

Definition set_runs (v : bool) (b : BaseService) : BaseService :=
  mkBase (name b) v (done b) (input b) (output b) (rlimit b).
Definition set_rlimit (l : option Limiter) (b : BaseService) : BaseService :=
  mkBase (name b) (runs b) (done b) (input b) (output b) l.

(** [NewBaseService(srv, name)]: [done], [input] and [output] are made
    here, in this order, on the channel heap [heap]. *)
Definition NewBaseService (u : U) (nm : string) (heap : list bool) : World :=
  let c := length heap in
  mkWorld (mkBase nm false c (S c) (S (S c)) None) u (heap ++ [false; false; false]).

(** [bas.running()] *)
Definition running : M bool := λ w, Ret (runs (bas w)) w.

(** [bas.setRunning(val)] *)
Definition setRunning (val : bool) : M unit :=
  λ w, Ret tt (mkWorld (set_runs val (bas w)) (usr w) (chans w)).

(** [close(bas.done)]: panics on a closed channel. *)
Definition close_done : M unit := λ w,
  match chans w !! done (bas w) with
  | Some false => Ret tt (mkWorld (bas w) (usr w) (<[done (bas w) := true]> (chans w)))
  | _ => Panic
  end.

Definition call_hook (hook : U → Outcome U (option error)) : M (option error) := λ w,
  match hook (usr w) with
  | Ret r u => Ret r (mkWorld (bas w) u (chans w))
  | Panic => Panic
  end.

(** [return errors.New(bas.name + suffix)] *)
Definition reject (suffix : string) : M (option error) :=
  λ w, Ret (Some (name (bas w) +:+ suffix)%string) w.

(** [func (bas *BaseService) Start() error] *)
Definition Start : M (option error) :=
  r ← running;
  if r : bool then reject " has already been started"
  else
    setRunning true;;
    call_hook OnStart.

(** [func (bas *BaseService) Stop() error] *)
Definition Stop : M (option error) :=
  r ← running;
  if negb r then reject " is already stopped"
  else
    setRunning false;;
    close_done;;
    call_hook OnStop.

(** [Done()], [Input()], [Output()] *)
Definition Done (w : World) : chan := done (bas w).
Definition Input (w : World) : chan := input (bas w).
Definition Output (w : World) : chan := output (bas w).

(** [func (bas *BaseService) SetRateLimit(persec int)] *)
Definition SetRateLimit (persec : Z) : M unit := λ w,
  Ret tt (mkWorld (set_rlimit (if bool_decide (persec = 0%Z) then None
                               else Some (ratelimit_New persec)) (bas w))
            (usr w) (chans w)).

(** [func (bas *BaseService) CheckRateLimit()], called at instant [now]. *)
Definition CheckRateLimit (now : Z) : M Z := λ w,
  match rlimit (bas w) with
  | Some l =>
      let '(l', wake) := Take now l in
      Ret wake (mkWorld (set_rlimit (Some l') (bas w)) (usr w) (chans w))
  | None => Ret now w
  end.

(** A receive from a channel of the heap that is only ever closed. *)
Definition closed (w : World) (c : chan) : bool := default false (chans w !! c).

End Methods.

(** ** The test service of base_test.go *)

(** Program counter of one [handleRequests] goroutine. *)
Inductive Worker (A : Type) : Type :=
| AtCheck              (* top of [for], before [srv.CheckRateLimit()] *)
| AtSelect             (* blocked in the select *)
| AtSend (req : A)     (* received [req], blocked in [srv.Output() <- req] *)
| Exited.              (* returned after [<-srv.done] *)
Arguments AtCheck {A}.
Arguments AtSelect {A}.
Arguments AtSend {A} req.
Arguments Exited {A}.

(** [type testService struct { BaseService; done chan struct{} }], with the
    goroutines its [OnStart] has spawned and what went in and out of its
    channels so far (oldest first); [done] is only ever closed and is
    represented by its flag. *)
Record testService (A : Type) : Type := mkTest {
  tdone : bool;
  workers : list (Worker A);
  sent : list A;
  received : list A
}.
Arguments mkTest {A} tdone workers sent received.
Arguments tdone {A} t.
Arguments workers {A} t.
Arguments sent {A} t.
Arguments received {A} t.

(** [newTestService()] *)
Definition newTestService {A} : testService A :=
  {| tdone := false; workers := []; sent := []; received := [] |}.

(** [OnStart] spawns [handleRequests]; [OnStop] closes [srv.done]. *)
#[export] Instance testService_Service {A} : Service (testService A) := {|
  OnStart t := Ret None (mkTest (tdone t) (workers t ++ [AtCheck]) (sent t) (received t));
  OnStop t :=
    if tdone t then Panic
    else Ret None (mkTest true (workers t) (sent t) (received t))
|}.

Section TestService.
Context {A : Type}.

#[local] Abbreviation World := (World (testService A)).

Definition set_worker (h : nat) (pc : Worker A) (t : testService A) : testService A :=
  mkTest (tdone t) (<[h := pc]> (workers t)) (sent t) (received t).

(** What can happen: a call by the test, a rendezvous on [Input()] (the
    test sends [req], worker [h] receives it in its select), a rendezvous
    on [Output()] (worker [h] sends, the test receives), and the steps a
    worker takes on its own. *)
Inductive Label : Type :=
| CallStart
| CallStop
| CallSetRateLimit (persec : Z)
| Send (h : nat) (req : A)
| Receive (h : nat)
| Check (h : nat) (now : Z)
| Quit (h : nat).

Definition returned {R} (o : Outcome World R) : option World :=
  match o with
  | Ret _ w => Some w
  | Panic => None
  end.

(** One step; [None] when it cannot be taken.  A send on the unbuffered
    [Input()] needs a worker waiting in its select, a receive from
    [Output()] a worker waiting to send. *)
Definition step (l : Label) (w : World) : option World :=
  match l with
  | CallStart => returned (Start w)
  | CallStop => returned (Stop w)
  | CallSetRateLimit persec => returned (SetRateLimit persec w)
  | Send h req =>
      match workers (usr w) !! h with
      | Some AtSelect =>
          let t := set_worker h (AtSend req) (usr w) in
          Some (mkWorld (bas w)
                  (mkTest (tdone t) (workers t) (sent t ++ [req]) (received t))
                  (chans w))
      | _ => None
      end
  | Receive h =>
      match workers (usr w) !! h with
      | Some (AtSend req) =>
          let t := set_worker h AtCheck (usr w) in
          Some (mkWorld (bas w)
                  (mkTest (tdone t) (workers t) (sent t) (received t ++ [req]))
                  (chans w))
      | _ => None
      end
  | Check h now =>
      match workers (usr w) !! h with
      | Some AtCheck =>
          match CheckRateLimit now w with
          | Ret _ w' => Some (mkWorld (bas w') (set_worker h AtSelect (usr w')) (chans w'))
          | Panic => None
          end
      | _ => None
      end
  | Quit h =>
      match workers (usr w) !! h with
      | Some AtSelect =>
          if tdone (usr w)
          then Some (mkWorld (bas w) (set_worker h Exited (usr w)) (chans w))
          else None
      | _ => None
      end
  end.

Fixpoint run (sched : list Label) (w : World) : option World :=
  match sched with
  | [] => Some w
  | l :: sched' =>
      match step l w with
      | Some w' => run sched' w'
      | None => None
      end
  end.

(** [newTestService()] with its [BaseService] named "Test". *)
Definition testWorld : World := NewBaseService newTestService "Test" [].

Definition reachable (w : World) : Prop := ∃ sched, run sched testWorld = Some w.

Definition is_start (l : Label) : bool :=
  match l with
  | CallStart => true
  | _ => false
  end.

(** The requests received by a worker and not yet sent on. *)
Definition in_transit (ws : list (Worker A)) : list A :=
  omap (λ pc, match pc with AtSend req => Some req | _ => None end) ws.

(** The world an execution ends in (the starting world if it gets stuck). *)
Definition world_after (sched : list Label) (w : World) : World :=
  default w (run sched w).

End TestService.

(** The default hooks of [BaseService]: both return nil. *)
#[export] Instance BaseService_Service : Service unit := {|
  OnStart u := Ret None u;
  OnStop u := Ret None u
|}.

End ChannelService.

(** * Properties *)

Section Properties.
Context {A U : Type} `{srv : Service A U}.

#[local] Abbreviation World := (World A U).

(** ** Executions *)

Lemma run_app (s1 s2 : list (Label (A:=A))) (w : World) :
  run (s1 ++ s2) w = run s1 w ≫= run s2.
Proof.
  revert w. induction s1 as [|l s1 IH]; intros w; simpl; [done|].
  destruct (step l w); simpl; [apply IH | done].
Qed.

Lemma run_cons l (sched : list (Label (A:=A))) (w w1 : World) :
  step l w = Some w1 → run (l :: sched) w = run sched w1.
Proof. intros H. simpl. by rewrite H. Qed.

Lemma run_snoc (s : list (Label (A:=A))) l (w w1 w2 : World) :
  run s w = Some w1 → step l w1 = Some w2 → run (s ++ [l]) w = Some w2.
Proof. intros H1 H2. rewrite run_app, H1. simpl. by rewrite H2. Qed.

(** Induction over the executions of a fresh service. *)
Lemma reachable_ind (P : World → Prop) :
  (∀ u nm, P (NewBaseService u nm)) →
  (∀ l w w', reachable w → P w → step l w = Some w' → P w') →
  ∀ w, reachable w → P w.
Proof.
  intros Hinit Hstep w (u & nm & sched & Hrun). revert w Hrun.
  induction sched as [|l sched IH] using rev_ind; intros w Hrun.
  - simpl in Hrun. injection Hrun as <-. apply Hinit.
  - rewrite run_app in Hrun.
    destruct (run sched (NewBaseService u nm)) as [w1|] eqn:E1; [|done].
    simpl in Hrun. destruct (step l w1) as [w2|] eqn:E2; [|done].
    injection Hrun as <-.
    apply (Hstep l w1 w2); [by exists u, nm, sched | by apply IH | done].
Qed.

Lemma reachable_step l (w w' : World) :
  reachable w → step l w = Some w' → reachable w'.
Proof.
  intros (u & nm & sched & Hrun) Hstep.
  exists u, nm, (sched ++ [l]). by eapply run_snoc.
Qed.

(** ** The methods, case by case *)

Lemma Start_running (w : World) :
  runs (bas w) = true →
  Start w = Ret (Some (name (bas w) +:+ " has already been started")%string) w.
Proof. intros H. unfold Start, mbind, M_bind, running, get. simpl. by rewrite H. Qed.

Lemma Start_not_running (w : World) :
  runs (bas w) = false →
  Start w = Ret (OnStart (usr w)).2 (started_world w).
Proof.
  intros H. unfold Start, started_world, mbind, M_bind, running, get. simpl. rewrite H.
  unfold call_OnStart. simpl. destruct (OnStart (usr w)); reflexivity.
Qed.

Lemma Stop_not_running (w : World) :
  runs (bas w) = false →
  Stop w = Ret (Some (name (bas w) +:+ " is already stopped")%string) w.
Proof. intros H. unfold Stop, mbind, M_bind, running, get. simpl. by rewrite H. Qed.

Lemma Stop_running (w : World) c :
  runs (bas w) = true → done (bas w) = Some c → chans w !! c = Some false →
  Stop w = Ret (OnStop (usr w)).2 (stopped_world c w).
Proof.
  destruct w as [[nm r q dn rl] u h cs ps evs]. simpl. intros -> -> Hc.
  unfold Stop, stopped_world, mbind, M_bind, running, get, close_chan. simpl.
  rewrite Hc. unfold call_OnStop. simpl. destruct (OnStop u); reflexivity.
Qed.

Lemma Request_not_running (w : World) ctx args :
  runs (bas w) = false → Request ctx args w = Ret tt w.
Proof. intros H. unfold Request, mbind, M_bind, running, get. simpl. by rewrite H. Qed.

Lemma Request_running (w : World) ctx args :
  runs (bas w) = true →
  Request ctx args w =
    Ret tt (emit (EvAppend (request ctx args))
              (with_bas (set_queue (queue (bas w) ++ [request ctx args])) w)).
Proof. intros H. unfold Request, mbind, M_bind, running, get. simpl. by rewrite H. Qed.

Lemma call_args_request ctx (args : Args A) :
  args ≠ ArgNil → call_args (request (Some ctx) args) = Some (ctx, args).
Proof. by destruct args. Qed.

(** *** Frames: what a step can touch *)

Lemma proc_step_frame d a (w w' : World) :
  proc_step d a w = Some w' →
  ∃ pc,
    procs w !! d = Some pc ∧
    runs (bas w') = runs (bas w) ∧ done (bas w') = done (bas w) ∧
    rlimit (bas w') = rlimit (bas w) ∧ name (bas w') = name (bas w) ∧
    chans w' = chans w ∧ cancelled w' = cancelled w ∧
    (∃ pc', procs w' = <[d := pc']> (procs w)) ∧
    (events w' = events w ∨ ∃ ev, ev_proc ev = Some d ∧ events w' = ev :: events w).
Proof.
  unfold proc_step. intros H.
  destruct (procs w !! d) as [pc|] eqn:Hpc; [|done]. exists pc. split; [done|].
  destruct a, pc; try done; simpl in H;
    repeat match type of H with
      | context [match ?x with _ => _ end] => destruct x
      | context [if ?x then _ else _] => destruct x
      end;
    try done; injection H as <-; simpl;
    (repeat (split; [reflexivity|])); (split; [eexists; reflexivity|]);
    first [left; reflexivity | right; eexists; split; [|reflexivity]; reflexivity].
Qed.

Lemma closes_of_proc_event (ev : Event A) d evs :
  ev_proc ev = Some d → closes_of (ev :: evs) = closes_of evs.
Proof. by destruct ev. Qed.

(** ** Invariants of every execution *)

Lemma lifecycle_ok_step l (w w' : World) :
  lifecycle_ok w → step l w = Some w' → lifecycle_ok w'.
Proof.
  unfold lifecycle_ok. intros Hinv Hstep.
  destruct l; simpl in Hstep.
  - (* Start *)
    destruct (runs (bas w)) eqn:Hr.
    + rewrite Start_running in Hstep by done. injection Hstep as <-. by rewrite Hr.
    + rewrite Start_not_running in Hstep by done. injection Hstep as <-.
      unfold started_world. destruct (OnStart (usr w)). simpl.
      by apply list_lookup_middle.
  - (* Stop *)
    destruct (runs (bas w)) eqn:Hr.
    + destruct (done (bas w)) as [c|] eqn:Hd; [|by destruct Hinv].
      simpl in Hinv. rewrite (Stop_running w c) in Hstep by done.
      injection Hstep as <-. unfold stopped_world. destruct (OnStop (usr w)). simpl.
      rewrite Hd. apply list_lookup_insert_eq. by eapply lookup_lt_Some.
    + rewrite Stop_not_running in Hstep by done. injection Hstep as <-. by rewrite Hr.
  - (* Request *)
    destruct (runs (bas w)) eqn:Hr.
    + rewrite Request_running in Hstep by done. injection Hstep as <-. simpl. by rewrite Hr.
    + rewrite Request_not_running in Hstep by done. injection Hstep as <-. by rewrite Hr.
  - (* SetRateLimit *)
    unfold SetRateLimit in Hstep. destruct (bool_decide _); injection Hstep as <-; done.
  - (* CheckRateLimit *)
    unfold CheckRateLimit, mbind, M_bind, get in Hstep. simpl in Hstep.
    destruct (rlimit (bas w)) as [lim|]; simpl in Hstep.
    + destruct (Take now lim). simpl in Hstep. injection Hstep as <-. done.
    + injection Hstep as <-. done.
  - (* Cancel *)
    injection Hstep as <-. done.
  - (* a dispatcher *)
    apply proc_step_frame in Hstep as
      (pc & Hpc & -> & -> & _ & _ & -> & _ & [pc' ->] & _).
    destruct (done (bas w)); [done|]. destruct Hinv as [? Hnil].
    rewrite Hnil in Hpc. done.
Qed.

Lemma lifecycle_ok_reachable (w : World) : reachable w → lifecycle_ok w.
Proof.
  revert w. apply reachable_ind.
  - intros u nm. by split.
  - intros l w w' _. apply lifecycle_ok_step.
Qed.

Lemma closes_ok_step l (w w' : World) :
  lifecycle_ok w → closes_ok w → step l w = Some w' → closes_ok w'.
Proof.
  unfold closes_ok. intros Hlife [Hnd Hcl] Hstep.
  destruct l; simpl in Hstep.
  - (* Start *)
    destruct (runs (bas w)) eqn:Hr.
    + rewrite Start_running in Hstep by done. by injection Hstep as <-.
    + rewrite Start_not_running in Hstep by done. injection Hstep as <-.
      unfold started_world. destruct (OnStart (usr w)). simpl.
      split; [done|]. intros c Hc. by apply lookup_app_l_Some, Hcl.
  - (* Stop *)
    destruct (runs (bas w)) eqn:Hr.
    + unfold lifecycle_ok in Hlife.
      destruct (done (bas w)) as [c|] eqn:Hd; [|destruct Hlife; congruence].
      rewrite Hr in Hlife. simpl in Hlife.
      rewrite (Stop_running w c) in Hstep by done.
      injection Hstep as <-. unfold stopped_world. destruct (OnStop (usr w)). simpl.
      split.
      * apply NoDup_cons. split; [|done].
        intros Hin. apply Hcl in Hin. congruence.
      * intros c' [->|Hin]%elem_of_cons.
        -- apply list_lookup_insert_eq. by eapply lookup_lt_Some.
        -- destruct (decide (c = c')) as [->|Hne].
           ++ apply Hcl in Hin. congruence.
           ++ rewrite list_lookup_insert_ne by done. by apply Hcl.
    + rewrite Stop_not_running in Hstep by done. by injection Hstep as <-.
  - (* Request *)
    destruct (runs (bas w)) eqn:Hr.
    + rewrite Request_running in Hstep by done. by injection Hstep as <-.
    + rewrite Request_not_running in Hstep by done. by injection Hstep as <-.
  - (* SetRateLimit *)
    unfold SetRateLimit in Hstep. destruct (bool_decide _); by injection Hstep as <-.
  - (* CheckRateLimit *)
    unfold CheckRateLimit, mbind, M_bind, get in Hstep. simpl in Hstep.
    destruct (rlimit (bas w)) as [lim|]; simpl in Hstep.
    + destruct (Take now lim). simpl in Hstep. by injection Hstep as <-.
    + by injection Hstep as <-.
  - (* Cancel *)
    by injection Hstep as <-.
  - (* a dispatcher *)
    apply proc_step_frame in Hstep as
      (pc & Hpc & _ & _ & _ & _ & -> & _ & _ & [-> | (ev & Hev & ->)]); [done|].
    by rewrite (closes_of_proc_event ev d).
Qed.

Lemma closes_ok_reachable (w : World) : reachable w → closes_ok w.
Proof.
  intros Hw. cut (lifecycle_ok w ∧ closes_ok w); [by intros []|].
  revert w Hw. apply reachable_ind.
  - intros u nm. repeat split; [apply NoDup_nil_2|]. intros c Hc. by apply elem_of_nil in Hc.
  - intros l w w' _ [Hl Hc] Hstep. split.
    + by eapply lifecycle_ok_step.
    + by eapply closes_ok_step.
Qed.

Lemma Stop_returns (w : World) : reachable w → ∃ r w', Stop w = Ret r w'.
Proof.
  intros Hlife%lifecycle_ok_reachable. unfold lifecycle_ok in Hlife.
  destruct (runs (bas w)) eqn:Hr.
  - destruct (done (bas w)) as [c|] eqn:Hd; [|destruct Hlife; congruence].
    simpl in Hlife. rewrite (Stop_running w c) by done. eauto.
  - rewrite Stop_not_running by done. eauto.
Qed.

Lemma Stop_not_running_after (w w' : World) r : Stop w = Ret r w' → runs (bas w') = false.
Proof.
  destruct (runs (bas w)) eqn:Hr.
  - unfold Stop, mbind, M_bind, running, get, close_chan. simpl. rewrite Hr. simpl.
    destruct (done (bas w)) as [c|]; [|done].
    destruct (chans w !! c) as [[]|]; try done.
    unfold call_OnStop. simpl. destruct (OnStop (usr w)). by intros [= _ <-].
  - rewrite Stop_not_running by done. by intros [= _ <-].
Qed.

Lemma closes_of_history (w : World) : closes_of (history w) ≡ₚ closes_of (events w).
Proof. unfold history, closes_of. by rewrite reverse_Permutation. Qed.

Lemma never_started_step l (w w' : World) :
  is_start l = false → never_started w → step l w = Some w' → never_started w'.
Proof.
  unfold never_started. intros Hl (Hd & Hr & Hp & Hc) Hstep.
  destruct l; try done; simpl in Hstep.
  - rewrite Stop_not_running in Hstep by done. by injection Hstep as <-.
  - rewrite Request_not_running in Hstep by done. by injection Hstep as <-.
  - unfold SetRateLimit in Hstep. destruct (bool_decide _); by injection Hstep as <-.
  - unfold CheckRateLimit, mbind, M_bind, get in Hstep. simpl in Hstep.
    destruct (rlimit (bas w)) as [lim|]; simpl in Hstep.
    + destruct (Take now lim). simpl in Hstep. by injection Hstep as <-.
    + by injection Hstep as <-.
  - by injection Hstep as <-.
  - unfold proc_step in Hstep. by rewrite Hp in Hstep.
Qed.

Lemma never_started_run sched (w w' : World) :
  forallb (λ l, negb (is_start l)) sched = true →
  never_started w → run sched w = Some w' → never_started w'.
Proof.
  revert w. induction sched as [|l sched IH]; intros w Hns Hw Hrun; simpl in *.
  - by injection Hrun as <-.
  - apply andb_prop in Hns as [Hl Hns]. apply negb_true_iff in Hl.
    destruct (step l w) as [w1|] eqn:Hstep; [|done].
    eapply IH; [done| |done]. by eapply never_started_step.
Qed.

(** Everything on the queue and everything a dispatcher holds was put
    there by [Request]. *)
Lemma built_ok_step l (w w' : World) :
  built_ok w → step l w = Some w' → built_ok w'.
Proof.
  unfold built_ok. intros [Hq Hp] Hstep.
  destruct l; simpl in Hstep.
  - destruct (runs (bas w)) eqn:Hr.
    + rewrite Start_running in Hstep by done. by injection Hstep as <-.
    + rewrite Start_not_running in Hstep by done. injection Hstep as <-.
      unfold started_world. destruct (OnStart (usr w)). simpl.
      split; [done|]. apply Forall_app. split; [done|]. by repeat constructor.
  - destruct (runs (bas w)) eqn:Hr.
    + unfold Stop, mbind, M_bind, running, get, close_chan in Hstep. simpl in Hstep.
      rewrite Hr in Hstep. simpl in Hstep.
      destruct (done (bas w)) as [c|]; [|done].
      destruct (chans w !! c) as [[]|]; try done.
      unfold call_OnStop in Hstep. simpl in Hstep.
      destruct (OnStop (usr w)). by injection Hstep as <-.
    + rewrite Stop_not_running in Hstep by done. by injection Hstep as <-.
  - destruct (runs (bas w)) eqn:Hr.
    + rewrite Request_running in Hstep by done. injection Hstep as <-. simpl.
      split; [|done]. apply Forall_app. split; [done|].
      constructor; [by exists ctx, args | constructor].
    + rewrite Request_not_running in Hstep by done. by injection Hstep as <-.
  - unfold SetRateLimit in Hstep. destruct (bool_decide _); by injection Hstep as <-.
  - unfold CheckRateLimit, mbind, M_bind, get in Hstep. simpl in Hstep.
    destruct (rlimit (bas w)) as [lim|]; simpl in Hstep.
    + destruct (Take now lim). simpl in Hstep. by injection Hstep as <-.
    + by injection Hstep as <-.
  - by injection Hstep as <-.
  - unfold proc_step in Hstep.
    destruct (procs w !! d) as [pc|] eqn:Hpc; [|done].
    assert (pc_ok pc) as Hok by by eapply Forall_lookup_1.
    destruct a, pc; try done; simpl in Hstep, Hok.
    + injection Hstep as <-. simpl. split; [done|]. by apply Forall_insert.
    + destruct (recv_ready _ _); [|done]. injection Hstep as <-. simpl.
      split; [done|]. by apply Forall_insert.
    + destruct (queue_Signal_ready _); [|done]. injection Hstep as <-. simpl.
      split; [done|]. by apply Forall_insert.
    + destruct (queue (bas w)) as [|e q'] eqn:Hqw; simpl in Hstep;
        injection Hstep as <-; simpl.
      * split; [by rewrite Hqw|]. by apply Forall_insert.
      * apply Forall_cons in Hq as [He Hq']. split; [done|]. by apply Forall_insert.
    + destruct Hok as ([ctx|] & args & ->); simpl in Hstep; [|done].
      destruct (_ || _); injection Hstep as <-; simpl; (split; [done|]);
        apply Forall_insert; try done. by exists ctx, args.
    + destruct Hok as (ctx & args & ->).
      assert (args = ArgNil ∨ args ≠ ArgNil) as [->|Hargs];
        [destruct args; by auto| done |].
      rewrite call_args_request in Hstep by done.
      injection Hstep as <-. simpl. split; [done|].
      apply Forall_insert; [done|]. by exists ctx, args.
    + destruct (call_args e) as [[ctx x]|]; [|done].
      injection Hstep as <-. simpl. split; [done|]. by apply Forall_insert.
Qed.

Lemma built_ok_reachable (w : World) : reachable w → built_ok w.
Proof.
  revert w. apply reachable_ind.
  - intros u nm. split; constructor.
  - intros l w w' _. apply built_ok_step.
Qed.

(** ** The lifecycle *)

(** C10. A service that has never been started holds no DoneSignal: the
    constructor makes no channel, [Done()] returns nil for as long as no
    [Start] is issued, and a receive from that nil channel can never
    proceed, whatever the channel heap becomes.  The channel is made inside
    [Start]: every [Start] that passes the lifecycle check stores a channel
    that did not exist before, open, and leaves the older channels as they
    were. *)
Theorem C10_done_is_made_by_Start
    (u : U) (nm : string) (sched : list (Label (A:=A))) (w w0 : World)
    (Hnostart : forallb (λ l, negb (is_start l)) sched = true)
    (Hrun : run sched (NewBaseService u nm) = Some w)
    (Hstopped : runs (bas w0) = false) :
  Done (NewBaseService u nm : World) = None ∧
  chans (NewBaseService u nm : World) = [] ∧
  Done w = None ∧ chans w = [] ∧
  (∀ h, recv_ready h (Done w) = false) ∧
  Start w0 = Ret (OnStart (usr w0)).2 (started_world w0) ∧
  Done (started_world w0) = Some (length (chans w0)) ∧
  chans w0 !! length (chans w0) = None ∧
  chans (started_world w0) !! length (chans w0) = Some false ∧
  (∀ c, c < length (chans w0) → chans (started_world w0) !! c = chans w0 !! c).
Proof.
  assert (never_started w) as (Hd & _ & _ & Hc).
  { eapply never_started_run; [done| |done]. by repeat split. }
  unfold Done. rewrite Hd, Hc. split_and!; try done.
  - by apply Start_not_running.
  - unfold started_world. by destruct (OnStart (usr w0)).
  - by apply lookup_ge_None_2.
  - unfold started_world. destruct (OnStart (usr w0)). simpl. by apply list_lookup_middle.
  - intros c Hlt. unfold started_world. destruct (OnStart (usr w0)). simpl.
    by apply lookup_app_l.
Qed.

(** C3, as the code has it.  Only a [Start] issued while the service is
    running is rejected, with the "has already been started" error and no
    change of state.  Once [Stop] has returned the service is not running,
    and the next [Start] is accepted: it makes a fresh DoneSignal, spawns
    one more dispatcher, sets the service running again and returns what
    the start hook returns.  A stopped service is restartable. *)
Theorem C3_stopped_service_restarts
    (w w1 : World) (r : option error)
    (Hrunning : runs (bas w) = true)
    (Hstop : Stop w = Ret r w1) :
  Start w = Ret (Some (name (bas w) +:+ " has already been started")%string) w ∧
  runs (bas w1) = false ∧
  Start w1 = Ret (OnStart (usr w1)).2 (started_world w1) ∧
  runs (bas (started_world w1)) = true ∧
  Done (started_world w1) = Some (length (chans w1)) ∧
  chans w1 !! length (chans w1) = None ∧
  procs (started_world w1) = procs w1 ++ [PcLoop].
Proof.
  assert (runs (bas w1) = false) as Hr1 by by eapply Stop_not_running_after.
  split_and!; try done.
  - by apply Start_running.
  - by apply Start_not_running.
  - unfold started_world. by destruct (OnStart (usr w1)).
  - unfold started_world. by destruct (OnStart (usr w1)).
  - by apply lookup_ge_None_2.
  - unfold started_world. by destruct (OnStart (usr w1)).
Qed.

(** C4. [Request] on a service that is not running returns without an
    error and leaves the world as it was: nothing is appended, and every
    execution that follows is the execution that would have followed
    without the call, so no handler invocation can stem from it.  A freshly
    constructed service and a service on which [Stop] has returned are both
    not running. *)
Theorem C4_request_ignored_when_not_running
    (w ws ws' : World) (u : U) (nm : string) (ctx : option Context) (args : Args A)
    (rs : option error)
    (Hnot : runs (bas w) = false)
    (Hstop : Stop ws = Ret rs ws') :
  Request ctx args w = Ret tt w ∧
  (∀ sched, run (CallRequest ctx args :: sched) w = run sched w) ∧
  Request ctx args (NewBaseService u nm) = Ret tt (NewBaseService u nm) ∧
  Request ctx args ws' = Ret tt ws'.
Proof.
  split_and!.
  - by apply Request_not_running.
  - intros sched. simpl. by rewrite Request_not_running.
  - apply Request_not_running. reflexivity.
  - apply Request_not_running. by eapply Stop_not_running_after.
Qed.

(** C6. [Start] on a running service returns the "has already been
    started" error and changes nothing: not the flag, not the dispatchers,
    not the DoneSignal.  [Stop] on a service that is not running returns
    the "is already stopped" error and changes nothing.  Hence in every
    execution [Stop] returns (its [close] never meets a nil or closed
    channel) and no channel is closed twice. *)
Theorem C6_lifecycle_misuse_is_rejected
    (w1 w2 w : World)
    (Hrunning : runs (bas w1) = true)
    (Hnot : runs (bas w2) = false)
    (Hreach : reachable w) :
  Start w1 = Ret (Some (name (bas w1) +:+ " has already been started")%string) w1 ∧
  Stop w2 = Ret (Some (name (bas w2) +:+ " is already stopped")%string) w2 ∧
  (∃ r w', Stop w = Ret r w') ∧
  NoDup (closes_of (history w)).
Proof.
  split_and!.
  - by apply Start_running.
  - by apply Stop_not_running.
  - by apply Stop_returns.
  - rewrite closes_of_history. by apply closes_ok_reachable.
Qed.

(** C7. A [Start] that passes the lifecycle check makes the DoneSignal,
    spawns the dispatcher, sets the service running and then calls the
    start hook, in this order, and returns what the hook returns.  Whatever
    that is, an error included, the service is left running with the new
    dispatcher at the top of its loop. *)
Theorem C7_start_sequence
    (w : World)
    (Hnot : runs (bas w) = false) :
  Start w = Ret (OnStart (usr w)).2 (started_world w) ∧
  history (started_world w) =
    history w ++ [EvMake (length (chans w)); EvGo (length (procs w));
                  EvSetRunning true; EvOnStart (OnStart (usr w)).2] ∧
  runs (bas (started_world w)) = true ∧
  Done (started_world w) = Some (length (chans w)) ∧
  procs (started_world w) !! length (procs w) = Some PcLoop ∧
  usr (started_world w) = (OnStart (usr w)).1.
Proof.
  split; [by apply Start_not_running|].
  unfold started_world, history. destruct (OnStart (usr w)) as [u r]. simpl.
  split_and!; try done.
  - rewrite !reverse_cons, <- !app_assoc. done.
  - by apply list_lookup_middle.
Qed.

(** ** The rate limiter *)

Lemma SetRateLimit_zero (w : World) :
  SetRateLimit 0 w = Ret tt (with_bas (set_rlimit None) w).
Proof. reflexivity. Qed.

Lemma SetRateLimit_nonzero (w : World) n :
  n ≠ 0%Z → SetRateLimit n w = Ret tt (with_bas (set_rlimit (Some (ratelimit_New n))) w).
Proof. intros Hn. unfold SetRateLimit. by rewrite bool_decide_eq_false_2. Qed.

Lemma CheckRateLimit_none (w : World) now :
  rlimit (bas w) = None → CheckRateLimit now w = Ret now w.
Proof. intros H. unfold CheckRateLimit, mbind, M_bind, get. simpl. by rewrite H. Qed.

Lemma CheckRateLimit_some (w : World) now lim :
  rlimit (bas w) = Some lim →
  CheckRateLimit now w =
    Ret (Take now lim).2
        (emit (EvTake (Take now lim).2) (with_bas (set_rlimit (Some (Take now lim).1)) w)).
Proof.
  intros H. unfold CheckRateLimit, mbind, M_bind, get. simpl. rewrite H.
  by destruct (Take now lim).
Qed.

Lemma rlimit_none_step l (w w' : World) :
  is_set_rate_limit l = false → rlimit (bas w) = None → step l w = Some w' →
  rlimit (bas w') = None.
Proof.
  intros Hl Hnone Hstep. destruct l; try done; simpl in Hstep.
  - destruct (runs (bas w)) eqn:Hr.
    + rewrite Start_running in Hstep by done. by injection Hstep as <-.
    + rewrite Start_not_running in Hstep by done. injection Hstep as <-.
      unfold started_world. by destruct (OnStart (usr w)).
  - destruct (runs (bas w)) eqn:Hr.
    + unfold Stop, mbind, M_bind, running, get, close_chan in Hstep. simpl in Hstep.
      rewrite Hr in Hstep. simpl in Hstep.
      destruct (done (bas w)) as [c|]; [|done].
      destruct (chans w !! c) as [[]|]; try done.
      unfold call_OnStop in Hstep. simpl in Hstep.
      destruct (OnStop (usr w)). by injection Hstep as <-.
    + rewrite Stop_not_running in Hstep by done. by injection Hstep as <-.
  - destruct (runs (bas w)) eqn:Hr.
    + rewrite Request_running in Hstep by done. by injection Hstep as <-.
    + rewrite Request_not_running in Hstep by done. by injection Hstep as <-.
  - rewrite CheckRateLimit_none in Hstep by done. by injection Hstep as <-.
  - by injection Hstep as <-.
  - apply proc_step_frame in Hstep as (pc & _ & _ & _ & -> & _). done.
Qed.

Lemma rlimit_none_run sched (w w' : World) :
  forallb (λ l, negb (is_set_rate_limit l)) sched = true →
  rlimit (bas w) = None → run sched w = Some w' → rlimit (bas w') = None.
Proof.
  revert w. induction sched as [|l sched IH]; intros w Hns Hw Hrun; simpl in *.
  - by injection Hrun as <-.
  - apply andb_prop in Hns as [Hl Hns]. apply negb_true_iff in Hl.
    destruct (step l w) as [w1|] eqn:Hstep; [|done].
    eapply IH; [done| |done]. by eapply rlimit_none_step.
Qed.

(** C8. [SetRateLimit(0)] clears the limiter, and from then on, as long
    as no other [SetRateLimit] is issued, [CheckRateLimit] returns at the
    instant it is called and changes nothing.  [SetRateLimit(n)] with
    [n > 0] installs a fresh limiter with a period of one second divided by
    [n] and no slack: the second of two acquisitions resumes no earlier than
    one period after the first.  [CheckRateLimit] takes from the limiter it
    finds installed, and is a no-op exactly when there is none. *)
Theorem C8_rate_limit
    (w w0 w1 : World) (sched : list (Label (A:=A))) (n now t1 t2 : Z) (lim : Limiter)
    (Hn : (0 < n)%Z)
    (Hnoset : forallb (λ l, negb (is_set_rate_limit l)) sched = true)
    (Hrun : run sched (with_bas (set_rlimit None) w) = Some w1)
    (Hlim : rlimit (bas w0) = Some lim) :
  SetRateLimit 0 w = Ret tt (with_bas (set_rlimit None) w) ∧
  CheckRateLimit now w1 = Ret now w1 ∧
  SetRateLimit n w =
    Ret tt (with_bas (set_rlimit (Some {| perRequest := Second / n; last := None |})) w) ∧
  CheckRateLimit now w0 =
    Ret (Take now lim).2
        (emit (EvTake (Take now lim).2) (with_bas (set_rlimit (Some (Take now lim).1)) w0)) ∧
  (∀ w2 : World, CheckRateLimit now w2 = Ret now w2 ↔ rlimit (bas w2) = None) ∧
  (Take t1 (ratelimit_New n)).2 = t1 ∧
  (Take t2 (Take t1 (ratelimit_New n)).1).2 = Z.max t2 (t1 + Second / n).
Proof.
  assert (Z.quot Second n = (Second / n)%Z) as Hq.
  { apply Z.quot_div_nonneg; [by compute | lia]. }
  split_and!.
  - apply SetRateLimit_zero.
  - apply CheckRateLimit_none.
    eapply rlimit_none_run; [exact Hnoset| |exact Hrun]. reflexivity.
  - rewrite SetRateLimit_nonzero by lia. unfold ratelimit_New. by rewrite Hq.
  - by apply CheckRateLimit_some.
  - intros w2. split.
    + intros Heq. destruct (rlimit (bas w2)) as [l2|] eqn:Hl2; [|done].
      rewrite (CheckRateLimit_some w2 now l2) in Heq by done.
      injection Heq as _ Heq. apply (f_equal (λ x, length (events x))) in Heq.
      simpl in Heq. lia.
    + apply CheckRateLimit_none.
  - reflexivity.
  - unfold ratelimit_New, Take. simpl. by rewrite Hq.
Qed.

(** ** The dispatcher *)

Lemma lookup_set_pc d pc (w : World) :
  d < length (procs w) → procs (set_pc d pc w) !! d = Some pc.
Proof. intros H. simpl. by apply list_lookup_insert_eq. Qed.

Lemma set_pc_set_pc d pc1 pc2 (w : World) :
  procs (set_pc d pc2 (set_pc d pc1 w)) = <[d := pc2]> (procs w).
Proof. simpl. apply list_insert_insert_eq. Qed.

Lemma step_next_some d (w : World) e q' :
  procs w !! d = Some PcNext → queue (bas w) = e :: q' →
  proc_step d ActNext w =
    Some (emit (EvNext d e) (set_pc d (PcEach e) (with_bas (set_queue q') w))).
Proof. intros Hpc Hq. unfold proc_step. by rewrite Hpc, Hq. Qed.

Lemma step_next_none d (w : World) :
  procs w !! d = Some PcNext → queue (bas w) = [] →
  proc_step d ActNext w = Some (set_pc d PcLoop w).
Proof. intros Hpc Hq. unfold proc_step. by rewrite Hpc, Hq. Qed.

Lemma step_poll d (w : World) ctx args :
  procs w !! d = Some (PcEach (request (Some ctx) args)) →
  proc_step d ActPoll w =
    Some (if ctx_done w ctx || recv_ready (chans w) (Done w)
          then emit (EvDrop d (request (Some ctx) args)) (set_pc d PcNext w)
          else emit (EvLive d (request (Some ctx) args))
                 (set_pc d (PcCall (request (Some ctx) args)) w)).
Proof. intros Hpc. unfold proc_step. rewrite Hpc. simpl. by destruct (_ || _). Qed.

Lemma step_call d (w : World) ctx args :
  procs w !! d = Some (PcCall (request (Some ctx) args)) → args ≠ ArgNil →
  proc_step d ActCall w =
    Some (emit (EvCall d (request (Some ctx) args))
            (set_pc d (PcHandler (request (Some ctx) args)) w)).
Proof.
  intros Hpc Hargs. unfold proc_step. by rewrite Hpc, call_args_request.
Qed.

Lemma step_return d (w : World) ctx args :
  procs w !! d = Some (PcHandler (request (Some ctx) args)) → args ≠ ArgNil →
  proc_step d ActReturn w =
    Some (emit (EvReturn d (request (Some ctx) args))
            (set_pc d PcNext (with_usr (OnRequest ctx args (usr w)) w))).
Proof.
  intros Hpc Hargs. unfold proc_step. by rewrite Hpc, call_args_request.
Qed.

Lemma panic_has_no_next d a (w : World) :
  proc_panics d a w = true → proc_step d a w = None.
Proof.
  unfold proc_panics, proc_step. destruct (procs w !! d) as [pc|]; [|done].
  destruct pc, a; try done.
  - by destruct (Args' e) as [|[] ?].
  - by destruct (call_args e).
Qed.



(** Inside a handler a dispatcher can only return from it: it takes no
    other request before the invocation it is in has returned. *)
Lemma step_in_handler d (w : World) e a :
  procs w !! d = Some (PcHandler e) → a ≠ ActReturn → proc_step d a w = None.
Proof. intros Hpc Ha. unfold proc_step. rewrite Hpc. by destruct a. Qed.


Lemma omap_reverse {X Y} (f : X → option Y) (l : list X) :
  omap f (reverse l) = reverse (omap f l).
Proof.
  induction l as [|x l IH]; [done|].
  rewrite reverse_cons, omap_app, IH. simpl.
  destruct (f x); simpl; [by rewrite reverse_cons | by rewrite app_nil_r].
Qed.

Lemma filter_none {X} (f : X → bool) (l : list X) :
  (∀ x, f x = false) → filter f l = [].
Proof.
  intros Hf. induction l as [|x l IH]; [done|].
  rewrite filter_cons, Hf, IH. by rewrite decide_False by (by intros []).
Qed.

Lemma filter_all {X} (f : X → bool) (l : list X) :
  (∀ x, f x = true) → filter f l = l.
Proof.
  intros Hf. induction l as [|x l IH]; [done|].
  rewrite filter_cons, Hf, IH. by rewrite decide_True by done.
Qed.

Lemma calls_of_history (w : World) :
  calls_of (history w) = reverse (calls_of (events w)).
Proof. apply omap_reverse. Qed.

Lemma appends_of_history (w : World) :
  appends_of (history w) = reverse (appends_of (events w)).
Proof. apply omap_reverse. Qed.

(** [Process] run by dispatcher [d] with nobody else moving: the live
    requests are handled in queue order, the others are skipped. *)
(** The program counter a dispatcher was just given. *)
Ltac solve_pc := apply list_lookup_insert_eq; simpl; rewrite ?length_insert; done.

Lemma Process_run d (alive : queuedCall A → bool) (reqs : list (Context * Args A)) :
  Forall (λ p, alive (request (Some p.1) p.2) = true → p.2 ≠ ArgNil) reqs →
  ∀ w : World,
    procs w !! d = Some PcNext →
    queue (bas w) = map (λ p, request (Some p.1) p.2) reqs →
    (∀ e, live w e = alive e) →
    ∃ w',
      run (Process_sched d alive (queue (bas w))) w = Some w' ∧
      queue (bas w') = [] ∧
      procs w' = <[d := PcLoop]> (procs w) ∧
      calls_of (events w') = reverse (filter alive (queue (bas w))) ++ calls_of (events w) ∧
      usr w' = handle_all (filter alive (queue (bas w))) (usr w) ∧
      chans w' = chans w ∧ cancelled w' = cancelled w ∧
      done (bas w') = done (bas w) ∧ runs (bas w') = runs (bas w) ∧
      drops_of (events w') =
        reverse (filter (λ e, negb (alive e)) (queue (bas w))) ++ drops_of (events w).
Proof.
  induction 1 as [|[ctx args] reqs Hargs _ IH]; intros w Hpc Hq Hlive; rewrite Hq.
  - exists (set_pc d PcLoop w). split; [|by split_and!].
    change (run [Go d ActNext] w = Some (set_pc d PcLoop w)).
    rewrite (run_cons _ _ _ (set_pc d PcLoop w)); [done|].
    by apply step_next_none.
  - assert (d < length (procs w)) as Hd by by eapply lookup_lt_Some.
    simpl in Hargs.
    change (map (λ p, request (Some p.1) p.2) ((ctx, args) :: reqs))
      with (request (Some ctx) args :: map (λ p, request (Some p.1) p.2) reqs) in *.
    set (e := request (Some ctx) args) in *.
    set (q' := map (λ p, request (Some p.1) p.2) reqs) in *.
    pose (w1 := emit (EvNext d e) (set_pc d (PcEach e) (with_bas (set_queue q') w))).
    assert (step (Go d ActNext) w = Some w1) as H1 by by apply step_next_some.
    assert (ctx_done w1 ctx || recv_ready (chans w1) (Done w1) = negb (alive e)) as Hdead.
    { rewrite <- Hlive. unfold live. simpl. by rewrite negb_involutive. }
    assert (procs w1 !! d = Some (PcEach e)) as Hpc1 by by apply list_lookup_insert_eq.
    pose proof (step_poll d w1 ctx args Hpc1) as H2. rewrite Hdead in H2.
    change (Process_sched d alive (e :: q'))
      with (Go d ActNext :: Go d ActPoll ::
              (if alive e then [Go d ActCall; Go d ActReturn] else []) ++
              Process_sched d alive q').
    rewrite !filter_cons.
    destruct (alive e) eqn:Hal; simpl in H2.
    + specialize (Hargs eq_refl).
      pose (w2 := emit (EvLive d e) (set_pc d (PcCall e) w1)).
      assert (step (Go d ActPoll) w1 = Some w2) as H2' by exact H2.
      pose (w3 := emit (EvCall d e) (set_pc d (PcHandler e) w2)).
      pose (w4 := emit (EvReturn d e)
                    (set_pc d PcNext (with_usr (OnRequest ctx args (usr w3)) w3))).
      assert (step (Go d ActCall) w2 = Some w3) as H3.
      { apply step_call; [solve_pc|done]. }
      assert (step (Go d ActReturn) w3 = Some w4) as H4.
      { apply step_return; [solve_pc|done]. }
      destruct (IH w4) as
        (w' & Hrun & Hq' & Hp' & Hc' & Hu' & Hch & Hca & Hdn & Hrn & Hdr).
      { solve_pc. }
      { done. }
      { intros e'. by rewrite <- Hlive. }
      exists w'. split.
      { rewrite (run_cons _ _ _ _ H1), (run_cons _ _ _ _ H2').
        change ([Go d ActCall; Go d ActReturn] ++ Process_sched d alive q')
          with (Go d ActCall :: Go d ActReturn :: Process_sched d alive q').
        by rewrite (run_cons _ _ _ _ H3), (run_cons _ _ _ _ H4). }
      rewrite decide_True by done. rewrite decide_False by (by intros []).
      split_and!; try done.
      * rewrite Hp'. simpl. by rewrite !list_insert_insert_eq.
      * rewrite Hc'. simpl. by rewrite reverse_cons, <- app_assoc.
      * rewrite Hu'. unfold handle_all. simpl. subst e. by rewrite call_args_request.
    + pose (w2 := emit (EvDrop d e) (set_pc d PcNext w1)).
      assert (step (Go d ActPoll) w1 = Some w2) as H2' by exact H2.
      destruct (IH w2) as
        (w' & Hrun & Hq' & Hp' & Hc' & Hu' & Hch & Hca & Hdn & Hrn & Hdr).
      { solve_pc. }
      { done. }
      { intros e'. by rewrite <- Hlive. }
      exists w'. split.
      { by rewrite (run_cons _ _ _ _ H1), (run_cons _ _ _ _ H2'). }
      rewrite decide_False by (by intros []). rewrite decide_True by done.
      split_and!; try done.
      * rewrite Hp'. simpl. by rewrite !list_insert_insert_eq.
      * rewrite Hdr. simpl. by rewrite reverse_cons, <- app_assoc.
Qed.


(** ** What a step is *)

(** A step of the caller, by cases: a call that is rejected or ignored
    leaves the world as it was. *)
Lemma step_caller_inv l (w w' : World) :
  step l w = Some w' →
  w' = w ∨
  (l = CallStart ∧ runs (bas w) = false ∧ w' = started_world w) ∨
  (∃ c, l = CallStop ∧ runs (bas w) = true ∧ done (bas w) = Some c ∧
        chans w !! c = Some false ∧ w' = stopped_world c w) ∨
  (∃ ctx args, l = CallRequest ctx args ∧ runs (bas w) = true ∧
     w' = emit (EvAppend (request ctx args))
            (with_bas (set_queue (queue (bas w) ++ [request ctx args])) w)) ∨
  (∃ n, l = CallSetRateLimit n ∧
     w' = with_bas (set_rlimit (if bool_decide (n = 0%Z) then None
                                 else Some (ratelimit_New n))) w) ∨
  (∃ now lim, l = CallCheckRateLimit now ∧ rlimit (bas w) = Some lim ∧
     w' = emit (EvTake (Take now lim).2)
            (with_bas (set_rlimit (Some (Take now lim).1)) w)) ∨
  (∃ ctx, l = Cancel ctx ∧
     w' = emit (EvCancel ctx) (with_cancelled (ctx :: cancelled w) w)) ∨
  (∃ d a, l = Go d a ∧ proc_step d a w = Some w').
Proof.
  intros Hstep. destruct l; simpl in Hstep.
  - destruct (runs (bas w)) eqn:Hr.
    + rewrite Start_running in Hstep by done. left. by injection Hstep.
    + rewrite Start_not_running in Hstep by done. right. left. by injection Hstep.
  - destruct (runs (bas w)) eqn:Hr.
    + unfold Stop, mbind, M_bind, running, get, close_chan in Hstep. simpl in Hstep.
      rewrite Hr in Hstep. simpl in Hstep.
      destruct (done (bas w)) as [c|] eqn:Hd; [|done].
      destruct (chans w !! c) as [[]|] eqn:Hc; try done.
      right. right. left. exists c. split_and!; try done.
      pose proof (Stop_running w c Hr Hd Hc) as Hs.
      unfold Stop, mbind, M_bind, running, get, close_chan in Hs. simpl in Hs.
      rewrite Hr in Hs. simpl in Hs. rewrite Hd, Hc in Hs. simpl in Hs.
      rewrite Hs in Hstep. by injection Hstep.
    + rewrite Stop_not_running in Hstep by done. left. by injection Hstep.
  - destruct (runs (bas w)) eqn:Hr.
    + rewrite Request_running in Hstep by done. do 3 right. left.
      exists ctx, args. by injection Hstep.
    + rewrite Request_not_running in Hstep by done. left. by injection Hstep.
  - do 4 right. left. exists persec. split; [done|].
    unfold SetRateLimit in Hstep. destruct (bool_decide _); by injection Hstep.
  - destruct (rlimit (bas w)) as [lim|] eqn:Hl.
    + rewrite (CheckRateLimit_some w now lim) in Hstep by done.
      do 5 right. left. exists now, lim. by injection Hstep.
    + rewrite CheckRateLimit_none in Hstep by done. left. by injection Hstep.
  - do 6 right. left. exists ctx. by injection Hstep.
  - do 7 right. by exists d, a.
Qed.

(** A statement of a dispatcher, by cases. *)
Lemma proc_step_inv d a (w w' : World) :
  proc_step d a w = Some w' →
  ∃ pc, procs w !! d = Some pc ∧
    ((pc = PcLoop ∧ w' = set_pc d (PcSelect (Done w)) w) ∨
     (∃ c, pc = PcSelect c ∧ recv_ready (chans w) c = true ∧
           w' = emit (EvExit d) (set_pc d PcExit w)) ∨
     (∃ c, pc = PcSelect c ∧ queue (bas w) ≠ [] ∧ w' = set_pc d PcNext w) ∨
     (pc = PcNext ∧ queue (bas w) = [] ∧ w' = set_pc d PcLoop w) ∨
     (∃ e q', pc = PcNext ∧ queue (bas w) = e :: q' ∧
              w' = emit (EvNext d e) (set_pc d (PcEach e) (with_bas (set_queue q') w))) ∨
     (∃ e ctx rest, pc = PcEach e ∧ Args' e = ArgCtx ctx :: rest ∧
              ctx_done w ctx || recv_ready (chans w) (Done w) = true ∧
              w' = emit (EvDrop d e) (set_pc d PcNext w)) ∨
     (∃ e ctx rest, pc = PcEach e ∧ Args' e = ArgCtx ctx :: rest ∧
              ctx_done w ctx || recv_ready (chans w) (Done w) = false ∧
              w' = emit (EvLive d e) (set_pc d (PcCall e) w)) ∨
     (∃ e ctx x, pc = PcCall e ∧ call_args e = Some (ctx, x) ∧
              w' = emit (EvCall d e) (set_pc d (PcHandler e) w)) ∨
     (∃ e ctx x, pc = PcHandler e ∧ call_args e = Some (ctx, x) ∧
              w' = emit (EvReturn d e)
                     (set_pc d PcNext (with_usr (OnRequest ctx x (usr w)) w)))).
Proof.
  unfold proc_step. intros H.
  destruct (procs w !! d) as [pc|] eqn:Hpc; [|done]. exists pc. split; [done|].
  destruct a, pc; try done; simpl in H.
  - left. by injection H.
  - destruct (recv_ready _ _) eqn:Hr; [|done]. right. left. exists c. by injection H.
  - unfold queue_Signal_ready in H. case_bool_decide as Hlen; [done|]. simpl in H.
    do 2 right. left. exists c. split_and!; [done| |by injection H].
    intros Hq. by rewrite Hq in Hlen.
  - destruct (queue (bas w)) as [|e q'] eqn:Hq; simpl in H.
    + do 3 right. left. by injection H.
    + do 4 right. left. exists e, q'. by injection H.
  - destruct (Args' e) as [|[ctx|v|] rest] eqn:Ha; try done.
    destruct (_ || _) eqn:Hc.
    + do 5 right. left. exists e, ctx, rest. by injection H.
    + do 6 right. left. exists e, ctx, rest. by injection H.
  - destruct (call_args e) as [[ctx x]|] eqn:Ha; [|done].
    do 7 right. left. exists e, ctx, x. by injection H.
  - destruct (call_args e) as [[ctx x]|] eqn:Ha; [|done].
    do 8 right. exists e, ctx, x. by injection H.
Qed.

(** ** Handler invocations and the DoneSignal *)

(** What one statement of a dispatcher does to the program counters and to
    the events: nothing visible, an event other than a passed check or a
    call, a passed check, or a call. *)
Lemma proc_step_cases d a (w w' : World) :
  proc_step d a w = Some w' →
  ∃ pc pc',
    procs w !! d = Some pc ∧ procs w' = <[d := pc']> (procs w) ∧
    ((events w' = events w ∧ ∀ e, pc' ≠ PcCall e) ∨
     (∃ ev, events w' = ev :: events w ∧ ev_proc ev = Some d ∧
            (∀ e, pc' ≠ PcCall e) ∧
            (∀ d' e, ev ≠ EvCall d' e) ∧ (∀ d' e, ev ≠ EvLive d' e)) ∨
     (∃ e, pc' = PcCall e ∧ events w' = EvLive d e :: events w ∧
           recv_ready (chans w) (Done w) = false) ∨
     (∃ e, pc = PcCall e ∧ (∀ e', pc' ≠ PcCall e') ∧ events w' = EvCall d e :: events w)).
Proof.
  unfold proc_step. intros H.
  destruct (procs w !! d) as [pc|] eqn:Hpc; [|done]. exists pc.
  destruct a, pc; try done; simpl in H.
  - injection H as <-. eexists. split_and!; [done..|]. left. done.
  - destruct (recv_ready _ _); [|done]. injection H as <-.
    eexists. split_and!; [done..|]. right. left. eexists. by split_and!.
  - destruct (queue_Signal_ready _); [|done]. injection H as <-.
    eexists. split_and!; [done..|]. left. done.
  - destruct (queue_Next _) as [[e q']|]; injection H as <-.
    + eexists. split_and!; [done..|]. right. left. eexists. by split_and!.
    + eexists. split_and!; [done..|]. left. done.
  - destruct (Args' e) as [|[ctx|v|] rest]; try done.
    destruct (ctx_done w ctx) eqn:Hc; simpl in H.
    + injection H as <-. eexists. split_and!; [done..|].
      right. left. eexists. by split_and!.
    + destruct (recv_ready _ _) eqn:Hr; injection H as <-.
      * eexists. split_and!; [done..|]. right. left. eexists. by split_and!.
      * eexists. split_and!; [done..|]. right. right. left. eexists. by split_and!.
  - destruct (call_args e); [|done]. injection H as <-.
    eexists. split_and!; [done..|]. right. right. right. eexists. by split_and!.
  - destruct (call_args e) as [[ctx x]|]; [|done]. injection H as <-.
    eexists. split_and!; [done..|]. right. left. eexists. by split_and!.
Qed.

Lemma checked_before_cons d e ev (past : list (Event A)) :
  ev_proc ev ≠ Some d → checked_before d e past → checked_before d e (ev :: past).
Proof.
  intros Hev (mid & older & -> & Hwin & Hmid).
  exists (ev :: mid), older. split_and!; [done..|]. by constructor.
Qed.

Lemma calls_checked_cons ev (past : list (Event A)) :
  (∀ d e, ev ≠ EvCall d e) → calls_checked past → calls_checked (ev :: past).
Proof.
  intros Hev Hpast later d e earlier Heq.
  destruct later as [|ev' later]; simplify_eq/=.
  - by destruct (Hev d e).
  - by eapply Hpast.
Qed.

Lemma calls_checked_call d e (past : list (Event A)) :
  checked_before d e past → calls_checked past → calls_checked (EvCall d e :: past).
Proof.
  intros Hchk Hpast later d' e' earlier Heq.
  destruct later as [|ev' later]; simplify_eq/=.
  - done.
  - by eapply Hpast.
Qed.

Lemma lives_while_open_cons ev (past : list (Event A)) :
  (∀ d e, ev ≠ EvLive d e) → lives_while_open past → lives_while_open (ev :: past).
Proof.
  intros Hev Hpast later d e earlier Heq.
  destruct later as [|ev' later]; simplify_eq/=.
  - by destruct (Hev d e).
  - by eapply Hpast.
Qed.

Lemma lives_while_open_live d e (past : list (Event A)) :
  done_open past = true → lives_while_open past → lives_while_open (EvLive d e :: past).
Proof.
  intros Hwin Hpast later d' e' earlier Heq.
  destruct later as [|ev' later]; simplify_eq/=.
  - done.
  - by eapply Hpast.
Qed.

(** *** Executions of the interleaved system *)

Lemma irun_app (s1 s2 : list ILabel) (s : World * Caller) :
  irun (s1 ++ s2) s = irun s1 s ≫= irun s2.
Proof.
  revert s. induction s1 as [|il s1 IH]; intros s; simpl; [done|].
  destruct (istep il s); simpl; [apply IH | done].
Qed.

Lemma ireachable_ind (P : World * Caller → Prop) :
  (∀ u nm, P (NewBaseService u nm, Idle)) →
  (∀ il s s', ireachable s → P s → istep il s = Some s' → P s') →
  ∀ s, ireachable s → P s.
Proof.
  intros Hinit Hstep s (u & nm & sched & Hrun). revert s Hrun.
  induction sched as [|il sched IH] using rev_ind; intros s Hrun.
  - simpl in Hrun. injection Hrun as <-. apply Hinit.
  - rewrite irun_app in Hrun.
    destruct (irun sched (NewBaseService u nm, Idle)) as [s1|] eqn:E1; [|done].
    simpl in Hrun. destruct (istep il s1) as [s2|] eqn:E2; [|done].
    injection Hrun as <-.
    apply (Hstep il s1 s2); [by exists u, nm, sched | by apply IH | done].
Qed.

(** A step of the interleaved system, by cases. *)
Lemma istep_inv il (w w' : World) c c' :
  istep il (w, c) = Some (w', c') →
  (c = Idle ∧ w' = w ∧
     (il = EnterStart ∧ c' = (if runs (bas w) then Idle else StartChecked) ∨
      il = EnterStop ∧ c' = (if runs (bas w) then StopChecked else Idle))) ∨
  (il = Stmt ∧ c = StartChecked ∧ c' = StartMade ∧
     w' = with_bas (set_done (Some (length (chans w))))
            (emit (EvMake (length (chans w))) (with_chans (chans w ++ [false]) w))) ∨
  (il = Stmt ∧ c = StartMade ∧ c' = StartSpawned ∧
     w' = emit (EvGo (length (procs w))) (with_procs (procs w ++ [PcLoop]) w)) ∨
  (il = Stmt ∧ c = StartSpawned ∧ c' = StartSet ∧
     w' = emit (EvSetRunning true) (with_bas (set_runs true) w)) ∨
  (il = Stmt ∧ c = StartSet ∧ c' = Idle ∧
     w' = emit (EvOnStart (OnStart (usr w)).2) (with_usr (OnStart (usr w)).1 w)) ∨
  (il = Stmt ∧ c = StopChecked ∧ c' = StopSet ∧
     w' = emit (EvSetRunning false) (with_bas (set_runs false) w)) ∨
  (∃ ch, il = Stmt ∧ c = StopSet ∧ c' = StopClosed ∧
     done (bas w) = Some ch ∧ chans w !! ch = Some false ∧
     w' = emit (EvClose ch) (with_chans (<[ch := true]> (chans w)) w)) ∨
  (il = Stmt ∧ c = StopClosed ∧ c' = Idle ∧
     w' = emit (EvOnStop (OnStop (usr w)).2) (with_usr (OnStop (usr w)).1 w)) ∨
  (∃ l, il = Other l ∧ c' = c ∧ l ≠ CallStart ∧ l ≠ CallStop ∧ step l w = Some w').
Proof.
  intros H. destruct il.
  - left. simpl in H. destruct c; try done. injection H as <- <-. auto.
  - left. simpl in H. destruct c; try done. injection H as <- <-. auto.
  - right. cbn [istep] in H.
    destruct c; try done; cbn [caller_step] in H; unfold stmt in H; simpl in H.
    + left. by injection H as <- <-.
    + right. left. by injection H as <- <-.
    + do 2 right. left. by injection H as <- <-.
    + do 3 right. left. unfold call_OnStart in H.
      destruct (OnStart (usr w)) as [u r]. by injection H as <- <-.
    + do 4 right. left. by injection H as <- <-.
    + do 5 right. left.
      unfold mbind, M_bind, get, close_chan in H. simpl in H.
      destruct (done (bas w)) as [ch|] eqn:Hd; [|done].
      destruct (chans w !! ch) as [[]|] eqn:Hc; try done.
      exists ch. by injection H as <- <-.
    + do 6 right. left. unfold call_OnStop in H.
      destruct (OnStop (usr w)) as [u r]. by injection H as <- <-.
  - do 8 right. exists l. cbn [istep] in H.
    destruct l, c; try done;
      (destruct (step _ w) as [w1|] eqn:Hs; [|done]); by injection H as <- <-.
Qed.

(** Every execution in which the calls are single steps is an execution
    of the interleaved system in which no dispatcher moves while [Start]
    or [Stop] is under way. *)
Lemma step_refines l (w w' : World) :
  step l w = Some w' → irun (refine l w) (w, Idle) = Some (w', Idle).
Proof.
  intros Hstep.
  assert (∀ l', l' ≠ CallStart → l' ≠ CallStop → step l' w = Some w' →
            irun [Other l'] (w, Idle) = Some (w', Idle)) as Hother.
  { intros l' H1 H2 Hs. cbn [irun istep]. destruct l'; try done; by rewrite Hs. }
  destruct l; try (by apply Hother).
  - simpl in Hstep. unfold refine. destruct (runs (bas w)) eqn:Hr.
    + rewrite Start_running in Hstep by done. injection Hstep as <-.
      simpl. by rewrite Hr.
    + rewrite Start_not_running in Hstep by done. injection Hstep as <-.
      unfold started_world. destruct (OnStart (usr w)) as [u r] eqn:Ho.
      simpl. rewrite Hr. repeat (unfold stmt, call_OnStart; simpl). by rewrite Ho.
  - simpl in Hstep. unfold refine. destruct (runs (bas w)) eqn:Hr.
    + unfold Stop, mbind, M_bind, running, get, close_chan in Hstep. simpl in Hstep.
      rewrite Hr in Hstep. simpl in Hstep.
      destruct (done (bas w)) as [c|] eqn:Hd; [|done].
      destruct (chans w !! c) as [[]|] eqn:Hc; try done.
      unfold call_OnStop in Hstep. simpl in Hstep.
      destruct (OnStop (usr w)) as [u r] eqn:Ho. injection Hstep as <-.
      simpl. rewrite Hr.
      repeat (unfold stmt, mbind, M_bind, get, close_chan, call_OnStop; simpl;
              rewrite ?Hd, ?Hc, ?Ho).
      done.
    + rewrite Stop_not_running in Hstep by done. injection Hstep as <-.
      simpl. by rewrite Hr.
Qed.

Lemma reachable_ireachable (w : World) : reachable w → ireachable (w, Idle).
Proof.
  revert w. apply reachable_ind.
  - intros u nm. by exists u, nm, [].
  - intros l w w' _ (u & nm & sched & Hrun) Hstep.
    exists u, nm, (sched ++ refine l w). rewrite irun_app, Hrun. simpl.
    by apply step_refines.
Qed.

(** *** The DoneSignal in the interleaved system *)

Lemma signal_ok_step il (s s' : World * Caller) :
  signal_ok s → istep il s = Some s' → signal_ok s'.
Proof.
  destruct s as [w c], s' as [w' c']. unfold signal_ok.
  intros (Hhead & Hdone & Hopen & Hruns) Hstep.
  apply istep_inv in Hstep as
    [(-> & -> & [[-> ->]|[-> ->]])|[(-> & -> & -> & ->)|[(-> & -> & -> & ->)|
     [(-> & -> & -> & ->)|[(-> & -> & -> & ->)|[(-> & -> & -> & ->)|
      [(ch & -> & -> & -> & Hd & Hc & ->)|[(-> & -> & -> & ->)|
       (l & -> & -> & Hns & Hnp & Hstep)]]]]]]]]; simpl in *.
  - destruct (runs (bas w)); by split_and!.
  - destruct (runs (bas w)); by split_and!.
  - split_and!; try done; [by apply list_lookup_middle | by rewrite orb_true_r].
  - rewrite orb_true_r in Hopen. split_and!; try done; [|by rewrite orb_true_r].
    destruct (done (bas w)); [done|]. destruct Hdone; congruence.
  - rewrite orb_true_r in Hopen. by split_and!.
  - by split_and!.
  - split_and!; try done. by rewrite Hopen, Hruns.
  - rewrite Hd in *. split_and!; try done; [|by rewrite Hruns].
    apply list_lookup_insert_eq. by eapply lookup_lt_Some.
  - by split_and!.
  - apply step_caller_inv in Hstep as
      [->|[(-> & _)|[(? & -> & _)|[(ctx & args & -> & Hr & ->)|
       [(n & -> & ->)|[(now & lim & -> & Hl & ->)|[(ctx & -> & ->)|(d & a & -> & Hp)]]]]]]];
      try done.
    apply proc_step_frame in Hp as
      (pc & Hpc & -> & -> & _ & _ & -> & _ & [pc' ->] & Hev).
    assert (makes_of (events w') = makes_of (events w) ∧
            done_open (events w') = done_open (events w)) as [-> ->].
    { destruct Hev as [-> | (ev & Hev & ->)]; [done|]. by destruct ev. }
    split_and!; [done| |done..].
    destruct (done (bas w)); [done|]. destruct Hdone as [_ Hnil].
    by rewrite Hnil in Hpc.
Qed.

Lemma signal_ok_ireachable (s : World * Caller) : ireachable s → signal_ok s.
Proof.
  revert s. apply ireachable_ind.
  - intros u nm. by split_and!.
  - intros il s s' _. apply signal_ok_step.
Qed.

(** *** The liveness check in the interleaved system *)

(** An event that is not a dispatcher's keeps what the dispatchers have
    checked. *)
Lemma checks_ok_event ev (w w' : World) :
  ev_proc ev = None →
  (∀ d e, procs w' !! d = Some (PcCall e) → procs w !! d = Some (PcCall e)) →
  events w' = ev :: events w →
  checks_ok w → checks_ok w'.
Proof.
  intros Hev Hp He (Hpc & Hcalls & Hlives).
  unfold checks_ok. rewrite He. split_and!.
  - intros d e Hd. apply checked_before_cons; [by rewrite Hev | by apply Hpc, Hp].
  - apply calls_checked_cons; [|done]. intros d e ->. done.
  - apply lives_while_open_cons; [|done]. intros d e ->. done.
Qed.

Lemma checks_ok_step il (w w' : World) c c' :
  signal_ok (w, c) → checks_ok w → istep il (w, c) = Some (w', c') → checks_ok w'.
Proof.
  intros (_ & Hdone & _ & _) Hok Hstep.
  apply istep_inv in Hstep as
    [(_ & -> & _)|[(_ & _ & _ & ->)|[(_ & _ & _ & ->)|
     [(_ & _ & _ & ->)|[(_ & _ & _ & ->)|[(_ & _ & _ & ->)|
      [(ch & _ & _ & _ & _ & _ & ->)|[(_ & _ & _ & ->)|
       (l & _ & _ & Hns & Hnp & Hstep)]]]]]]]].
  - done.
  - by eapply (checks_ok_event (EvMake _) w).
  - eapply (checks_ok_event (EvGo _) w); [done| |done..].
    simpl. intros d e [Hd|[_ Hd]]%lookup_app_Some; [done|].
    by destruct (d - length (procs w)) as [|[|?]].
  - by eapply (checks_ok_event (EvSetRunning _) w).
  - by eapply (checks_ok_event (EvOnStart _) w).
  - by eapply (checks_ok_event (EvSetRunning _) w).
  - by eapply (checks_ok_event (EvClose _) w).
  - by eapply (checks_ok_event (EvOnStop _) w).
  - apply step_caller_inv in Hstep as
      [->|[(-> & _)|[(? & -> & _)|[(ctx & args & -> & Hr & ->)|
       [(n & -> & ->)|[(now & lim & -> & Hl & ->)|[(ctx & -> & ->)|(d & a & -> & Hp)]]]]]]];
      try done.
    + by eapply (checks_ok_event (EvAppend _) w).
    + by eapply (checks_ok_event (EvTake _) w).
    + by eapply (checks_ok_event (EvCancel _) w).
    + apply proc_step_cases in Hp as (pc & pc' & Hpc & Hpc' & Hcases).
      assert (d < length (procs w)) as Hlt by by eapply lookup_lt_Some.
      destruct Hok as (Hchk & Hcalls & Hlives).
      unfold checks_ok. rewrite Hpc'.
      destruct Hcases as [[He Hne] | [(ev & He & Hev & Hne & Hnc & Hnl) |
        [(e & -> & He & Hready) | (e & -> & Hne & He)]]]; rewrite He.
      * split_and!; [|done..].
        intros d' e Hd'. destruct (decide (d = d')) as [<-|Hdd].
        -- rewrite list_lookup_insert_eq in Hd' by done. injection Hd' as ->.
           by destruct (Hne e).
        -- rewrite list_lookup_insert_ne in Hd' by done. by apply Hchk.
      * split_and!.
        -- intros d' e Hd'. destruct (decide (d = d')) as [<-|Hdd].
           ++ rewrite list_lookup_insert_eq in Hd' by done. injection Hd' as ->.
              by destruct (Hne e).
           ++ rewrite list_lookup_insert_ne in Hd' by done.
              apply checked_before_cons; [|by apply Hchk]. rewrite Hev. congruence.
        -- by apply calls_checked_cons.
        -- by apply lives_while_open_cons.
      * assert (done_open (events w) = true) as Hin.
        { unfold Done in Hready.
          destruct (done (bas w)) as [ch|]; [|destruct Hdone as [_ Hnil]; by rewrite Hnil in Hpc].
          simpl in Hready. rewrite Hdone in Hready. simpl in Hready.
          by apply negb_false_iff. }
        split_and!.
        -- intros d' e' Hd'. destruct (decide (d = d')) as [<-|Hdd].
           ++ rewrite list_lookup_insert_eq in Hd' by done. injection Hd' as <-.
              exists [], (events w). by split_and!.
           ++ rewrite list_lookup_insert_ne in Hd' by done.
              apply checked_before_cons; [|by apply Hchk]. simpl. congruence.
        -- apply calls_checked_cons; [|done]. done.
        -- by apply lives_while_open_live.
      * split_and!.
        -- intros d' e' Hd'. destruct (decide (d = d')) as [<-|Hdd].
           ++ rewrite list_lookup_insert_eq in Hd' by done. injection Hd' as ->.
              by destruct (Hne e').
           ++ rewrite list_lookup_insert_ne in Hd' by done.
              apply checked_before_cons; [|by apply Hchk]. simpl. congruence.
        -- apply calls_checked_call; [|done]. by apply Hchk.
        -- apply lives_while_open_cons; [|done]. done.
Qed.

Lemma checks_ok_ireachable (w : World) c : ireachable (w, c) → checks_ok w.
Proof.
  intros Hs. cut (signal_ok (w, c) ∧ checks_ok (w, c).1); [by intros []|].
  revert Hs. generalize (w, c). clear w c. apply ireachable_ind.
  - intros u nm. split; [by split_and!|]. split_and!.
    + done.
    + intros later d e earlier Heq. by destruct later.
    + intros later d e earlier Heq. by destruct later.
  - intros il [w c] [w' c'] _ [Hs Hc] Hstep. split.
    + by eapply signal_ok_step.
    + by eapply checks_ok_step.
Qed.


(** ** Order of the handler invocations *)

Lemma sublist_reverse {X} (l1 l2 : list X) :
  l1 `sublist_of` l2 → reverse l1 `sublist_of` reverse l2.
Proof.
  induction 1 as [|x l1 l2 _ IH|x l1 l2 _ IH]; [done|..]; rewrite ?reverse_cons.
  - by apply sublist_app.
  - by apply sublist_inserts_r.
Qed.

Lemma procs_length_step l (w w' : World) :
  step l w = Some w' → length (procs w) ≤ length (procs w').
Proof.
  intros Hstep. destruct l; simpl in Hstep.
  - destruct (runs (bas w)) eqn:Hr.
    + rewrite Start_running in Hstep by done. by injection Hstep as <-.
    + rewrite Start_not_running in Hstep by done. injection Hstep as <-.
      unfold started_world. destruct (OnStart (usr w)). simpl. rewrite length_app. lia.
  - destruct (runs (bas w)) eqn:Hr.
    + unfold Stop, mbind, M_bind, running, get, close_chan in Hstep. simpl in Hstep.
      rewrite Hr in Hstep. simpl in Hstep.
      destruct (done (bas w)) as [c|]; [|done].
      destruct (chans w !! c) as [[]|]; try done.
      unfold call_OnStop in Hstep. simpl in Hstep.
      destruct (OnStop (usr w)). by injection Hstep as <-.
    + rewrite Stop_not_running in Hstep by done. by injection Hstep as <-.
  - destruct (runs (bas w)) eqn:Hr.
    + rewrite Request_running in Hstep by done. by injection Hstep as <-.
    + rewrite Request_not_running in Hstep by done. by injection Hstep as <-.
  - unfold SetRateLimit in Hstep. destruct (bool_decide _); by injection Hstep as <-.
  - destruct (rlimit (bas w)) as [lim|] eqn:Hl.
    + rewrite (CheckRateLimit_some w now lim) in Hstep by done. by injection Hstep as <-.
    + rewrite CheckRateLimit_none in Hstep by done. by injection Hstep as <-.
  - by injection Hstep as <-.
  - apply proc_step_frame in Hstep as (_ & _ & _ & _ & _ & _ & _ & _ & [pc' ->] & _).
    by rewrite length_insert.
Qed.

Lemma single_proc d pc (ps : list (Pc A)) :
  ps !! d = Some pc → length ps ≤ 1 → d = 0 ∧ ps = [pc].
Proof.
  destruct ps as [|pc0 [|pc1 ps]]; simpl; [done| |lia].
  destruct d as [|d]; [|done]. by intros [= ->].
Qed.

Lemma sublist_drop_head {X} (x : X) (l k : list X) :
  x :: l `sublist_of` k → l `sublist_of` k.
Proof. intros H. etrans; [|exact H]. by apply sublist_cons. Qed.

Lemma fifo_ok_step l (w w' : World) :
  fifo_ok w → step l w = Some w' → fifo_ok w'.
Proof.
  unfold fifo_ok. intros [Hq Hord] Hstep.
  destruct l; simpl in Hstep.
  - (* Start *)
    destruct (runs (bas w)) eqn:Hr.
    + rewrite Start_running in Hstep by done. by injection Hstep as <-.
    + rewrite Start_not_running in Hstep by done. injection Hstep as <-.
      unfold started_world. destruct (OnStart (usr w)). simpl.
      split; [done|]. rewrite length_app. simpl. intros Hlen.
      destruct (procs w) as [|pc ps] eqn:Hps; [|simpl in Hlen; lia].
      simpl. apply Hord. simpl. lia.
  - (* Stop *)
    destruct (runs (bas w)) eqn:Hr.
    + unfold Stop, mbind, M_bind, running, get, close_chan in Hstep. simpl in Hstep.
      rewrite Hr in Hstep. simpl in Hstep.
      destruct (done (bas w)) as [c|]; [|done].
      destruct (chans w !! c) as [[]|]; try done.
      unfold call_OnStop in Hstep. simpl in Hstep.
      destruct (OnStop (usr w)). by injection Hstep as <-.
    + rewrite Stop_not_running in Hstep by done. by injection Hstep as <-.
  - (* Request *)
    destruct (runs (bas w)) eqn:Hr.
    + rewrite Request_running in Hstep by done. injection Hstep as <-. simpl.
      split; [|done]. by rewrite Hq, reverse_app.
    + rewrite Request_not_running in Hstep by done. by injection Hstep as <-.
  - (* SetRateLimit *)
    unfold SetRateLimit in Hstep. destruct (bool_decide _); by injection Hstep as <-.
  - (* CheckRateLimit *)
    destruct (rlimit (bas w)) as [lim|] eqn:Hl.
    + rewrite (CheckRateLimit_some w now lim) in Hstep by done. by injection Hstep as <-.
    + rewrite CheckRateLimit_none in Hstep by done. by injection Hstep as <-.
  - (* Cancel *)
    by injection Hstep as <-.
  - (* a dispatcher *)
    unfold proc_step in Hstep.
    destruct (procs w !! d) as [pc|] eqn:Hpc; [|done].
    assert (∀ pc', length (<[d := pc']> (procs w)) ≤ 1 →
              d = 0 ∧ procs w = [pc] ∧
              pending [pc] ++ calls_of (events w) `sublist_of` nexts_of (events w))
      as Hone.
    { intros pc' Hlen. rewrite length_insert in Hlen.
      destruct (single_proc d pc (procs w) Hpc Hlen) as [-> Hps].
      split_and!; [done..|]. rewrite <- Hps. by apply Hord. }
    destruct a, pc; try done; simpl in Hstep.
    + injection Hstep as <-. simpl. split; [done|].
      intros (-> & -> & Hs)%Hone. done.
    + destruct (recv_ready _ _); [|done]. injection Hstep as <-. simpl. split; [done|].
      intros (-> & -> & Hs)%Hone. done.
    + destruct (queue_Signal_ready _); [|done]. injection Hstep as <-. simpl.
      split; [done|]. intros (-> & -> & Hs)%Hone. done.
    + destruct (queue (bas w)) as [|e q'] eqn:Hqw; simpl in Hstep;
        injection Hstep as <-; simpl.
      * split; [by rewrite Hqw|]. intros (-> & -> & Hs)%Hone. done.
      * split.
        -- rewrite Hq, reverse_cons, <- app_assoc. done.
        -- intros (-> & -> & Hs)%Hone. simpl. by apply sublist_skip.
    + destruct (Args' e) as [|[ctx|v|] rest]; try done.
      destruct (_ || _); injection Hstep as <-; simpl; (split; [done|]);
        intros (-> & -> & Hs)%Hone; simpl in *; [by eapply sublist_drop_head | done].
    + destruct (call_args e); [|done]. injection Hstep as <-; simpl; (split; [done|]);
        intros (-> & -> & Hs)%Hone; simpl in *; done.
    + destruct (call_args e) as [[ctx x]|]; [|done]. injection Hstep as <-. simpl.
      split; [done|]. intros (-> & -> & Hs)%Hone. done.
Qed.

Lemma fifo_ok_reachable (w : World) : reachable w → fifo_ok w.
Proof.
  revert w. apply reachable_ind.
  - intros u nm. by split.
  - intros l w w' _. apply fifo_ok_step.
Qed.

(** With a single dispatcher, that is as long as [Start] has passed its
    check at most once, the handler invocations are in the order of the
    appends. *)
Lemma single_dispatcher_fifo (w : World) :
  reachable w → length (procs w) ≤ 1 →
  calls_of (history w) `sublist_of` appends_of (history w).
Proof.
  intros [Hq Hord]%fifo_ok_reachable Hlen.
  rewrite calls_of_history, appends_of_history. apply sublist_reverse.
  rewrite Hq. apply sublist_inserts_l.
  etrans; [|by apply Hord]. by apply sublist_inserts_l.
Qed.

(** The handler invocations in flight are at most as many as the
    dispatchers, one for every [Start] that has passed its check. *)
Lemma in_flight_le_dispatchers (w : World) : in_flight w ≤ length (procs w).
Proof. unfold in_flight. apply length_filter. Qed.

Lemma dispatchers_spawned (w : World) :
  reachable w → length (procs w) = length (gos_of (events w)).
Proof.
  revert w. apply reachable_ind; [done|].
  intros l w w' _ IH Hstep. destruct l; simpl in Hstep.
  - destruct (runs (bas w)) eqn:Hr.
    + rewrite Start_running in Hstep by done. by injection Hstep as <-.
    + rewrite Start_not_running in Hstep by done. injection Hstep as <-.
      unfold started_world. destruct (OnStart (usr w)). simpl.
      rewrite length_app. simpl. lia.
  - destruct (runs (bas w)) eqn:Hr.
    + unfold Stop, mbind, M_bind, running, get, close_chan in Hstep. simpl in Hstep.
      rewrite Hr in Hstep. simpl in Hstep.
      destruct (done (bas w)) as [c|]; [|done].
      destruct (chans w !! c) as [[]|]; try done.
      unfold call_OnStop in Hstep. simpl in Hstep.
      destruct (OnStop (usr w)). by injection Hstep as <-.
    + rewrite Stop_not_running in Hstep by done. by injection Hstep as <-.
  - destruct (runs (bas w)) eqn:Hr.
    + rewrite Request_running in Hstep by done. by injection Hstep as <-.
    + rewrite Request_not_running in Hstep by done. by injection Hstep as <-.
  - unfold SetRateLimit in Hstep. destruct (bool_decide _); by injection Hstep as <-.
  - destruct (rlimit (bas w)) as [lim|] eqn:Hl.
    + rewrite (CheckRateLimit_some w now lim) in Hstep by done. by injection Hstep as <-.
    + rewrite CheckRateLimit_none in Hstep by done. by injection Hstep as <-.
  - by injection Hstep as <-.
  - apply proc_step_frame in Hstep as
      (_ & _ & _ & _ & _ & _ & _ & _ & [pc' ->] & [-> | (ev & Hev & ->)]);
      rewrite length_insert; [done|]. by destruct ev.
Qed.

End Properties.

(** * The properties on the test service *)

(** Closed facts are settled by evaluation. *)
Ltac by_eval := vm_compute; reflexivity.

(** ** The lifecycle *)

(** C3 as stated fails: on the test service, whose hooks never fail, the
    [Start] that follows a successful [Start] and a successful [Stop]
    returns no error and leaves the service running with a second
    dispatcher. *)
Lemma C3_counterexample :
  let w1 := world_after [CallStart] testWorld in
  let w2 := world_after [CallStart; CallStop] testWorld in
  let w3 := world_after [CallStart; CallStop; CallStart] testWorld in
  Start testWorld = Ret None w1 ∧
  Stop w1 = Ret None w2 ∧
  Start w2 = Ret None w3 ∧
  runs (bas w3) = true ∧ length (procs w3) = 2.
Proof. intros w1 w2 w3. split_and!; by_eval. Qed.

Lemma C3_witness :
  let w := world_after [CallStart] testWorld in
  let w1 := world_after [CallStart; CallStop] testWorld in
  runs (bas w) = true ∧
  Stop w = Ret None w1 ∧
  Start w = Ret (Some "Test has already been started"%string) w ∧
  runs (bas w1) = false ∧
  Start w1 = Ret (OnStart (usr w1)).2 (started_world w1) ∧
  runs (bas (started_world w1)) = true ∧
  Done (started_world w1) = Some (length (chans w1)) ∧
  chans w1 !! length (chans w1) = None ∧
  procs (started_world w1) = procs w1 ++ [PcLoop].
Proof.
  intros w w1.
  assert (runs (bas w) = true) as H1 by by_eval.
  assert (Stop w = Ret None w1) as H2 by by_eval.
  split; [exact H1|]. split; [exact H2|].
  exact (C3_stopped_service_restarts w w1 None H1 H2).
Defined.

Lemma C4_witness :
  let w := world_after [CallStart; CallStop] testWorld in
  let ws := world_after [CallStart] testWorld in
  runs (bas w) = false ∧
  Stop ws = Ret None w ∧
  Request (Some 7) (str "late") w = Ret tt w ∧
  (∀ sched, run (CallRequest (Some 7) (str "late") :: sched) w = run sched w) ∧
  Request (Some 7) (str "late") testWorld = Ret tt testWorld ∧
  Request (Some 7) (str "late") w = Ret tt w.
Proof.
  intros w ws.
  assert (runs (bas w) = false) as H1 by by_eval.
  assert (Stop ws = Ret None w) as H2 by by_eval.
  split; [exact H1|]. split; [exact H2|].
  exact (C4_request_ignored_when_not_running
           w ws w newTestService "Test" (Some 7) (str "late") None H1 H2).
Defined.

Lemma C6_witness :
  let w1 := world_after [CallStart] testWorld in
  let w2 := world_after [CallStart; CallStop] testWorld in
  let w := world_after [CallStart; CallStop; CallStop; CallStart; CallStart; CallStop]
             testWorld in
  runs (bas w1) = true ∧
  runs (bas w2) = false ∧
  reachable w ∧
  Start w1 = Ret (Some "Test has already been started"%string) w1 ∧
  Stop w2 = Ret (Some "Test is already stopped"%string) w2 ∧
  (∃ r w', Stop w = Ret r w') ∧
  NoDup (closes_of (history w)).
Proof.
  intros w1 w2 w.
  assert (runs (bas w1) = true) as H1 by by_eval.
  assert (runs (bas w2) = false) as H2 by by_eval.
  assert (reachable w) as H3.
  { exists newTestService, "Test"%string,
      [CallStart; CallStop; CallStop; CallStart; CallStart; CallStop]. by_eval. }
  split; [exact H1|]. split; [exact H2|]. split; [exact H3|].
  exact (C6_lifecycle_misuse_is_rejected w1 w2 w H1 H2 H3).
Defined.

Lemma C7_witness :
  runs (bas failingWorld) = false ∧
  Start failingWorld = Ret (Some "start hook failed"%string) (started_world failingWorld) ∧
  history (started_world failingWorld) =
    history failingWorld ++
    [EvMake 0; EvGo 0; EvSetRunning true; EvOnStart (Some "start hook failed"%string)] ∧
  runs (bas (started_world failingWorld)) = true ∧
  Done (started_world failingWorld) = Some 0 ∧
  procs (started_world failingWorld) !! 0 = Some PcLoop ∧
  usr (started_world failingWorld) = FailingService.
Proof.
  assert (runs (bas failingWorld) = false) as H1 by by_eval.
  split; [exact H1|].
  exact (C7_start_sequence failingWorld H1).
Defined.

Lemma C10_witness :
  let sched := [CallStop; CallRequest (Some 0) (str "a"); CallSetRateLimit 2; Cancel 0] in
  let w := world_after sched testWorld in
  let w0 := world_after [CallStart; CallStop] testWorld in
  forallb (λ l, negb (is_start l)) sched = true ∧
  run sched testWorld = Some w ∧
  runs (bas w0) = false ∧
  Done testWorld = None ∧
  chans testWorld = [] ∧
  Done w = None ∧ chans w = [] ∧
  (∀ h, recv_ready h (Done w) = false) ∧
  Start w0 = Ret (OnStart (usr w0)).2 (started_world w0) ∧
  Done (started_world w0) = Some (length (chans w0)) ∧
  chans w0 !! length (chans w0) = None ∧
  chans (started_world w0) !! length (chans w0) = Some false ∧
  (∀ c, c < length (chans w0) → chans (started_world w0) !! c = chans w0 !! c).
Proof.
  intros sched w w0.
  assert (forallb (λ l, negb (is_start l)) sched = true) as H1 by by_eval.
  assert (run sched testWorld = Some w) as H2 by by_eval.
  assert (runs (bas w0) = false) as H3 by by_eval.
  split; [exact H1|]. split; [exact H2|]. split; [exact H3|].
  exact (C10_done_is_made_by_Start newTestService "Test" sched w w0 H1 H2 H3).
Defined.

(** ** The rate limiter *)

Lemma C8_witness :
  let w := world_after [CallSetRateLimit 2; CallStart] testWorld in
  let sched := [CallCheckRateLimit 10; CallRequest (Some 0) (str "a"); CallStop] in
  let w1 := world_after sched (with_bas (set_rlimit None) w) in
  let lim := ratelimit_New 2 in
  (0 < 2)%Z ∧
  forallb (λ l, negb (is_set_rate_limit l)) sched = true ∧
  run sched (with_bas (set_rlimit None) w) = Some w1 ∧
  rlimit (bas w) = Some lim ∧
  SetRateLimit 0 w = Ret tt (with_bas (set_rlimit None) w) ∧
  CheckRateLimit 5 w1 = Ret 5%Z w1 ∧
  SetRateLimit 2 w =
    Ret tt (with_bas (set_rlimit (Some {| perRequest := Second / 2; last := None |})) w) ∧
  CheckRateLimit 5 w =
    Ret (Take 5 lim).2
        (emit (EvTake (Take 5 lim).2) (with_bas (set_rlimit (Some (Take 5 lim).1)) w)) ∧
  (∀ w2 : World string testService,
     CheckRateLimit 5 w2 = Ret 5%Z w2 ↔ rlimit (bas w2) = None) ∧
  (Take 100 (ratelimit_New 2)).2 = 100%Z ∧
  (Take 200 (Take 100 (ratelimit_New 2)).1).2 = Z.max 200 (100 + Second / 2).
Proof.
  intros w sched w1 lim.
  assert (0 < 2)%Z as H1 by lia.
  assert (forallb (λ l, negb (is_set_rate_limit l)) sched = true) as H2 by by_eval.
  assert (run sched (with_bas (set_rlimit None) w) = Some w1) as H3 by by_eval.
  assert (rlimit (bas w) = Some lim) as H4 by by_eval.
  split; [exact H1|]. split; [exact H2|]. split; [exact H3|]. split; [exact H4|].
  exact (C8_rate_limit w w w1 sched 2 5 100 200 lim H1 H2 H3 H4).
Defined.

(** ** The dispatcher *)



(** Scenario E: the request with the cancelled context is skipped, the two
    that follow are handled in order. *)
Lemma cancelled_first_handled :
  let wq := world_after cancelled_first testWorld in
  let w' := world_after (Process_sched 0 (live wq) (queue (bas wq))) wq in
  calls_of (history w') = [request (Some 0) (str "str2"); request (Some 0) (str "str3")] ∧
  next (usr w') = ["str2"; "str3"]%string.
Proof. intros wq w'. split; by_eval. Qed.

(** ** Handler invocations and the DoneSignal *)



(** ** Restarting a service whose dispatcher is busy *)

(** C2 on the code.  [Stop] does not wait for the dispatcher, and the
    dispatcher reads [bas.done] anew on every round, so a dispatcher that is
    inside a handler during [Stop] and the next [Start] is still there
    afterwards, next to the one the second [Start] spawns: the two handlers
    of the test service are in flight together. *)
Theorem C2_restart_runs_two_handlers :
  let w := world_after restart_while_handling testWorld in
  run restart_while_handling testWorld = Some w ∧
  procs w = [PcHandler (request (Some 0) (str "a")); PcHandler (request (Some 0) (str "b"))] ∧
  in_flight w = 2.
Proof. intros w. split_and!; by_eval. Qed.

(** C1 on the code.  With the two dispatchers a restart can leave behind,
    the second request is dequeued and checked by one dispatcher, the third
    by the other, and the handler of the third is called first. *)
Theorem C1_restart_reorders_handlers :
  let w := world_after restart_then_race testWorld in
  run restart_then_race testWorld = Some w ∧
  appends_of (history w) =
    [request (Some 0) (str "a"); request (Some 0) (str "b"); request (Some 0) (str "c")] ∧
  calls_of (history w) =
    [request (Some 0) (str "a"); request (Some 0) (str "c"); request (Some 0) (str "b")].
Proof. intros w. split_and!; by_eval. Qed.

(** The test of the repository: three requests with one dispatcher are
    handled in the order of the calls. *)
Lemma three_requests_in_order :
  let w := world_after
             ([CallStart; CallRequest (Some 0) (str "str1"); CallRequest (Some 0) (str "str2");
               CallRequest (Some 0) (str "str3"); Go 0 ActEval; Go 0 ActRecvSignal] ++
              Process_sched 0 (λ _, true)
                [request (Some 0) (str "str1"); request (Some 0) (str "str2"); request (Some 0) (str "str3")])
             testWorld in
  next (usr w) = ["str1"; "str2"; "str3"]%string ∧ queue (bas w) = [].
Proof. intros w. split; by_eval. Qed.

(** * Further properties of the queue-based service *)

Section MoreProperties.
Context {A U : Type} `{srv : Service A U}.

#[local] Abbreviation World := (World A U).

(** ** The DoneSignal and the channel heap *)

(** X1. [Start] and [Stop] taken statement by statement, the dispatchers
    running in between.  [Done()] is nil until the first [Start] makes the
    DoneSignal, and from then on it is the channel made last.  A receive
    from it can proceed exactly when the service is not running and the
    caller does not stand in one of two gaps: between two calls [Done()]
    can be received from exactly while the service is stopped (TestStop),
    but after the [make] of a [Start] and before its [setRunning(true)],
    and after the [setRunning(false)] of a [Stop] and before its [close],
    the service is not running and [Done()] is open. *)
Theorem Done_ready_iff_stopped (w : World) (c : Caller) (Hreach : ireachable (w, c)) :
  Done w = head (makes_of (events w)) ∧
  recv_ready (chans w) (Done w) =
    match Done w with
    | None => false
    | Some _ => negb (runs (bas w)) && negb (in_gap c)
    end ∧
  (in_gap c = true → runs (bas w) = false).
Proof.
  destruct (signal_ok_ireachable _ Hreach) as (Hhead & Hdone & Hopen & Hruns).
  unfold Done. split_and!.
  - done.
  - destruct (done (bas w)) as [ch|]; [|done]. simpl.
    by rewrite Hdone, Hopen, negb_orb.
  - by destruct c.
Qed.

(** X18. [Start] and [Stop] taken statement by statement, the dispatchers
    running in between: the call in progress can always take its next
    statement, and no statement panics.  In particular, when [Stop] reaches
    [close(bas.done)] the channel is not nil and still open, whatever the
    dispatchers have done since the call began. *)
Theorem lifecycle_statements_never_panic
    (w : World) (c : Caller)
    (Hreach : ireachable (w, c))
    (Hbusy : c ≠ Idle) :
  ∃ s',
    istep Stmt (w, c) = Some s' ∧
    (c = StopSet →
     ∃ ch, Done w = Some ch ∧ chans w !! ch = Some false ∧ chans s'.1 !! ch = Some true).
Proof.
  destruct (signal_ok_ireachable _ Hreach) as (Hhead & Hdone & Hopen & Hruns).
  destruct c; try done; cbn [istep caller_step]; unfold stmt; simpl;
    try (by eexists).
  - unfold call_OnStart. destruct (OnStart (usr w)). by eexists.
  - simpl in Hopen. rewrite orb_true_r in Hopen. rewrite Hopen in Hdone.
    unfold mbind, M_bind, get, close_chan, Done. simpl.
    destruct (done (bas w)) as [ch|]; [|by destruct Hdone].
    simpl in Hdone. rewrite Hdone. eexists. split; [done|]. intros _.
    exists ch. split_and!; [done..|]. simpl.
    apply list_lookup_insert_eq. by eapply lookup_lt_Some.
  - unfold call_OnStop. destruct (OnStop (usr w)). by eexists.
Qed.

Lemma heap_shape_step l (w w' : World) :
  chans w = heap_after (length (procs w)) (runs (bas w)) ∧
  done (bas w) = done_after (length (procs w)) →
  step l w = Some w' →
  chans w' = heap_after (length (procs w')) (runs (bas w')) ∧
  done (bas w') = done_after (length (procs w')).
Proof.
  intros [Hc Hd] Hstep.
  apply step_caller_inv in Hstep as
    [->|[(-> & Hr & ->)|[(c & -> & Hr & Hdc & Hcc & ->)|[(ctx & args & -> & Hr & ->)|
     [(n & -> & ->)|[(now & lim & -> & Hl & ->)|[(ctx & -> & ->)|(d & a & -> & Hp)]]]]]]];
    try done.
  - (* Start *)
    unfold started_world. destruct (OnStart (usr w)). simpl.
    rewrite length_app. simpl. rewrite Nat.add_1_r. simpl.
    rewrite Hr in Hc. destruct (length (procs w)) as [|m] eqn:Hlen; simpl in Hc.
    + by rewrite Hc.
    + rewrite Hc. split.
      * by rewrite <- replicate_S_end.
      * by rewrite length_app, length_replicate, Nat.add_1_r.
  - (* Stop *)
    unfold stopped_world. destruct (OnStop (usr w)). simpl.
    rewrite Hr in Hc. rewrite Hdc in Hd.
    destruct (length (procs w)) as [|m] eqn:Hlen; simpl in Hc, Hd; [done|].
    injection Hd as ->. split; [|done]. rewrite Hc. simpl.
    rewrite insert_app_r_alt by by rewrite length_replicate.
    by rewrite length_replicate, Nat.sub_diag.
  - (* a dispatcher *)
    apply proc_step_frame in Hp as
      (pc & Hpc & -> & -> & _ & _ & -> & _ & [pc' ->] & _).
    by rewrite length_insert.
Qed.

(** X2. After [n] accepted calls of [Start] there are [n] channels and [n]
    dispatchers; [done] is the newest channel, every older channel is
    closed, and the newest is open exactly while the service runs. *)
Theorem heap_shape (w : World) (Hreach : reachable w) :
  chans w = heap_after (length (gos_of (events w))) (runs (bas w)) ∧
  Done w = done_after (length (gos_of (events w))) ∧
  length (procs w) = length (gos_of (events w)).
Proof.
  rewrite <- (dispatchers_spawned w Hreach). unfold Done.
  cut (chans w = heap_after (length (procs w)) (runs (bas w)) ∧
       done (bas w) = done_after (length (procs w))); [by intros []|].
  revert w Hreach. apply reachable_ind; [done|].
  intros l w w' _. apply heap_shape_step.
Qed.

(** ** The queue *)

Lemma appends_split (w : World) :
  reachable w → appends_of (history w) = nexts_of (history w) ++ queue (bas w).
Proof.
  intros Hreach. destruct (fifo_ok_reachable w Hreach) as [Hq _].
  rewrite appends_of_history, Hq, reverse_app, reverse_involutive.
  unfold nexts_of, history. by rewrite omap_reverse.
Qed.

(** Every request a dispatcher holds was taken off the queue. *)
Lemma held_dequeued (w : World) :
  reachable w →
  ∀ d pc e, procs w !! d = Some pc → held pc = Some e → e ∈ nexts_of (events w).
Proof.
  revert w.
  apply (reachable_ind (λ w, ∀ d pc e,
           procs w !! d = Some pc → held pc = Some e → e ∈ nexts_of (events w))).
  - intros u nm d pc e Hd. done.
  - intros l w w' _ IH Hstep d' pc0 e0 Hd' Hh.
    apply step_caller_inv in Hstep as
      [->|[(-> & Hr & ->)|[(c & -> & Hr & Hdc & Hcc & ->)|[(ctx & args & -> & Hr & ->)|
       [(n & -> & ->)|[(now & lim & -> & Hl & ->)|[(ctx & -> & ->)|(d & a & -> & Hp)]]]]]]];
      try (by eapply IH).
    + unfold started_world in *. destruct (OnStart (usr w)). simpl in *.
      apply lookup_app_Some in Hd' as [Hd'|[_ Hd']]; [by eapply IH|].
      destruct (d' - length (procs w)) as [|[|?]]; simplify_eq/=.
    + unfold stopped_world in *. destruct (OnStop (usr w)). simpl in *. by eapply IH.
    + destruct (decide (d = d')) as [<-|Hdd].
      * apply proc_step_inv in Hp as (pc & Hpc & Hcases).
        assert (d < length (procs w)) as Hlt by by eapply lookup_lt_Some.
        destruct Hcases as
          [(-> & ->)|[(c & -> & _ & ->)|[(c & -> & _ & ->)|[(-> & _ & ->)|
           [(e & q' & -> & _ & ->)|[(e & ctx & rest & -> & _ & _ & ->)|
            [(e & ctx & rest & -> & _ & _ & ->)|[(e & ctx & x & -> & _ & ->)|
             (e & ctx & x & -> & _ & ->)]]]]]]]]; simpl in Hd';
          rewrite list_lookup_insert_eq in Hd' by done; simplify_eq/=.
        -- apply elem_of_cons. by left.
        -- by eapply (IH d (PcEach e0)).
        -- by eapply (IH d (PcCall e0)).
      * apply proc_step_frame in Hp as
          (pc & Hpc & _ & _ & _ & _ & _ & _ & [pc' Hps] & Hev).
        rewrite Hps, list_lookup_insert_ne in Hd' by done.
        specialize (IH d' pc0 e0 Hd' Hh).
        destruct Hev as [-> | (ev & _ & ->)]; [done|].
        destruct ev; simpl; try done. apply elem_of_cons. by right.
Qed.

(** X3. The dispatcher panics on the zero [reflect.Value] and on nothing
    else.  In every execution, a statement of a dispatcher that panics is
    the one before the select of [each] on a request that [Request] was
    handed with a nil context, or the reflective call on a request that
    [Request] was handed with a nil argument; the assertion
    [.(context.Context)] and the number of arguments never fail.  So as
    long as no accepted request carries a nil, no statement of any
    dispatcher panics. *)
Theorem dispatcher_panics_only_on_nil (w : World) (Hreach : reachable w) :
  (∀ d a, proc_panics d a w = true →
     ∃ ctx args,
       request ctx args ∈ appends_of (history w) ∧
       ((a = ActPoll ∧ procs w !! d = Some (PcEach (request ctx args)) ∧ ctx = None) ∨
        (a = ActCall ∧ procs w !! d = Some (PcCall (request ctx args)) ∧ args = ArgNil))) ∧
  (Forall (λ e, ArgNil ∉ Args' e) (appends_of (history w)) →
   ∀ d a, proc_panics d a w = false).
Proof.
  assert (∀ d a, proc_panics d a w = true →
     ∃ ctx args,
       request ctx args ∈ appends_of (history w) ∧
       ((a = ActPoll ∧ procs w !! d = Some (PcEach (request ctx args)) ∧ ctx = None) ∨
        (a = ActCall ∧ procs w !! d = Some (PcCall (request ctx args)) ∧ args = ArgNil)))
    as Hpanics.
  { intros d a Hp. unfold proc_panics in Hp.
    destruct (procs w !! d) as [pc|] eqn:Hpc; [|done].
    destruct (built_ok_reachable w Hreach) as [_ Hok].
    assert (pc_ok pc) as Hpcok by by eapply Forall_lookup_1.
    assert (∀ e, held pc = Some e → e ∈ appends_of (history w)) as Hin.
    { intros e He. rewrite (appends_split w Hreach). apply elem_of_app. left.
      unfold nexts_of, history. rewrite omap_reverse. apply elem_of_reverse.
      by eapply held_dequeued. }
    destruct pc, a; try done; simpl in Hpcok.
    - destruct Hpcok as ([ctx|] & args & ->); [done|].
      exists None, args. split; [by apply Hin|]. by left.
    - destruct Hpcok as (ctx & args & ->).
      destruct args; try done.
      exists (Some ctx), ArgNil. split; [by apply Hin|]. by right. }
  split; [done|].
  intros Hall d a. destruct (proc_panics d a w) eqn:Hp; [|done].
  destruct (Hpanics d a Hp) as (ctx & args & Hin & Hcase).
  rewrite Forall_forall in Hall. specialize (Hall _ Hin). simpl in Hall.
  destruct Hall.
  destruct Hcase as [(_ & _ & ->)|(_ & _ & ->)]; simpl.
  - apply elem_of_cons. by left.
  - apply elem_of_cons. right. apply elem_of_cons. by left.
Qed.

(** X4. No request is lost or duplicated on its way through the queue: in
    every execution, whatever the number of dispatchers, the requests
    appended are those dequeued so far followed by those still queued, in
    this order. *)
Theorem queue_conservation (w : World) (Hreach : reachable w) :
  appends_of (history w) = nexts_of (history w) ++ queue (bas w).
Proof.
  destruct (fifo_ok_reachable w Hreach) as [Hq _].
  rewrite appends_of_history, Hq, reverse_app, reverse_involutive.
  unfold nexts_of, history. by rewrite omap_reverse.
Qed.

(** X5. [Len] changes nothing and returns the number of requests appended
    minus the number dequeued. *)
Theorem Len_counts_pending (w : World) (Hreach : reachable w) :
  Len w = Ret (length (appends_of (history w)) - length (nexts_of (history w))) w.
Proof.
  rewrite (appends_split w Hreach), length_app.
  unfold Len, get, queue_Len. f_equal. lia.
Qed.

(** X6. A caller's [Request] calls compose: on a running service they put
    their requests at the back of the queue in the order of the calls; on a
    service that is not running they are all ignored.  Nothing else
    changes, and [Len] grows by the number of accepted requests. *)
Theorem requests_are_queued_in_call_order
    (reqs : list (option Context * Args A)) (w : World) :
  ∃ w',
    run (requests reqs) w = Some w' ∧
    queue (bas w') =
      queue (bas w) ++
      (if runs (bas w) then map (λ p, request p.1 p.2) reqs else []) ∧
    Len w' = Ret (length (queue (bas w)) + (if runs (bas w) then length reqs else 0)) w' ∧
    runs (bas w') = runs (bas w) ∧ done (bas w') = done (bas w) ∧
    procs w' = procs w ∧ chans w' = chans w ∧ usr w' = usr w.
Proof.
  revert w. induction reqs as [|[ctx args] reqs IH]; intros w.
  - exists w. split_and!; try done.
    + by destruct (runs (bas w)); rewrite app_nil_r.
    + unfold Len, get, queue_Len. f_equal. destruct (runs (bas w)); simpl; lia.
  - destruct (runs (bas w)) eqn:Hr.
    + pose (w1 := emit (EvAppend (request ctx args))
                    (with_bas (set_queue (queue (bas w) ++ [request ctx args])) w)).
      assert (step (CallRequest ctx args) w = Some w1) as H1.
      { simpl. by rewrite Request_running. }
      destruct (IH w1) as (w' & Hrun & Hq & Hlen & Hr' & Hd & Hp & Hc & Hu).
      exists w'. change (runs (bas w1)) with (runs (bas w)) in *. rewrite Hr in *.
      split_and!; try done.
      * change (requests ((ctx, args) :: reqs))
          with (CallRequest ctx args :: requests reqs).
        by rewrite (run_cons _ _ _ _ H1).
      * rewrite Hq. simpl. by rewrite <- app_assoc.
      * rewrite Hlen. f_equal. simpl. rewrite length_app. simpl. lia.
    + assert (step (CallRequest ctx args) w = Some w) as H1.
      { simpl. by rewrite Request_not_running. }
      destruct (IH w) as (w' & Hrun & Hq & Hlen & Hr' & Hd & Hp & Hc & Hu).
      exists w'. rewrite Hr in *. split_and!; try done.
      change (requests ((ctx, args) :: reqs))
        with (CallRequest ctx args :: requests reqs).
      by rewrite (run_cons _ _ _ _ H1).
Qed.

(** ** One accepted Start *)

(** X7. As long as [Start] has been accepted at most once there is at most one
    handler invocation in flight. *)
Theorem single_start_one_handler
    (w : World)
    (Hreach : reachable w)
    (Honce : length (gos_of (events w)) ≤ 1) :
  in_flight w ≤ 1.
Proof.
  rewrite <- (dispatchers_spawned w Hreach) in Honce.
  pose proof (in_flight_le_dispatchers w). lia.
Qed.

(** X8. As long as [Start] has been accepted at most once the handlers are
    invoked in the order in which their requests were appended. *)
Theorem single_start_fifo
    (w : World)
    (Hreach : reachable w)
    (Honce : length (gos_of (events w)) ≤ 1) :
  calls_of (history w) `sublist_of` appends_of (history w).
Proof.
  apply single_dispatcher_fifo; [done|]. by rewrite (dispatchers_spawned w Hreach).
Qed.

(** ** Every dequeued request is accounted for *)

Lemma count_insert (P : Pc A → bool) (l : list (Pc A)) d pc pc' :
  l !! d = Some pc →
  length (filter P (<[d := pc']> l)) + (if P pc then 1 else 0) =
  length (filter P l) + (if P pc' then 1 else 0).
Proof.
  revert d. induction l as [|x l IH]; intros d Hd; [done|].
  destruct d as [|d]; simpl in Hd.
  - injection Hd as ->. simpl. rewrite !filter_cons.
    destruct (P pc), (P pc'); simpl; lia.
  - simpl. rewrite !filter_cons. specialize (IH d Hd).
    destruct (P x); simpl; lia.
Qed.

Lemma count_snoc_loop (P : Pc A → bool) (l : list (Pc A)) :
  P PcLoop = false → length (filter P (l ++ [PcLoop])) = length (filter P l).
Proof.
  intros HP. rewrite filter_app, length_app, filter_cons, HP. simpl. lia.
Qed.

(** X9. In every execution, a request taken off the queue has been dropped, or
    has passed the check, or is held by a dispatcher before the select of
    [each]; one that has passed the check has had its handler called or is
    held by a dispatcher about to call it; and a handler that was called
    has returned or is in flight.  Nothing that was dequeued goes missing. *)
Theorem dequeued_requests_accounted (w : World) (Hreach : reachable w) :
  length (nexts_of (events w)) =
    length (drops_of (events w)) + length (lives_of (events w)) + checking w ∧
  length (lives_of (events w)) = length (calls_of (events w)) + calling w ∧
  length (calls_of (events w)) = length (returns_of (events w)) + in_flight w.
Proof.
  revert w Hreach. apply reachable_ind; [done|].
  intros l w w' Hreach (H1 & H2 & H3) Hstep.
  unfold checking, calling, in_flight in *.
  apply step_caller_inv in Hstep as
    [->|[(-> & Hr & ->)|[(c & -> & Hr & Hdc & Hcc & ->)|[(ctx & args & -> & Hr & ->)|
     [(n & -> & ->)|[(now & lim & -> & Hl & ->)|[(ctx & -> & ->)|(d & a & -> & Hp)]]]]]]];
    try done.
  - unfold started_world. destruct (OnStart (usr w)). simpl.
    by rewrite !count_snoc_loop.
  - unfold stopped_world. by destruct (OnStop (usr w)).
  - apply proc_step_inv in Hp as (pc & Hpc & Hcases).
    pose proof (λ pc', count_insert is_each (procs w) d pc pc' Hpc) as Ce.
    pose proof (λ pc', count_insert is_calling (procs w) d pc pc' Hpc) as Cc.
    pose proof (λ pc', count_insert is_handling (procs w) d pc pc' Hpc) as Ch.
    destruct Hcases as
      [(-> & ->)|[(c & -> & _ & ->)|[(c & -> & _ & ->)|[(-> & _ & ->)|
       [(e & q' & -> & _ & ->)|[(e & ctx & rest & -> & _ & _ & ->)|
        [(e & ctx & rest & -> & _ & _ & ->)|[(e & ctx & x & -> & _ & ->)|
         (e & ctx & x & -> & _ & ->)]]]]]]]]; simpl;
      match goal with
      | |- context [<[d := ?pc']> (procs w)] =>
          specialize (Ce pc'); specialize (Cc pc'); specialize (Ch pc')
      end; simpl in *; lia.
Qed.

(** ** Cancellation *)

Lemma lives_uncancelled_cons ev (past : list (Event A)) :
  (∀ d e, ev ≠ EvLive d e) → lives_uncancelled past → lives_uncancelled (ev :: past).
Proof.
  intros Hev Hpast later d e ctx rest earlier Heq Hargs.
  destruct later as [|ev' later]; simplify_eq/=.
  - by destruct (Hev d e).
  - by eapply Hpast.
Qed.

Lemma cancelled_is_recorded (w : World) :
  reachable w → cancelled w = cancels_of (events w) ∧ lives_uncancelled (events w).
Proof.
  revert w. apply reachable_ind.
  - intros u nm. split; [done|]. intros later d e ctx rest earlier Heq. by destruct later.
  - intros l w w' Hreach [Hc Hl] Hstep.
    apply step_caller_inv in Hstep as
      [->|[(-> & Hr & ->)|[(c & -> & Hr & Hdc & Hcc & ->)|[(ctx & args & -> & Hr & ->)|
       [(n & -> & ->)|[(now & lim & -> & Hlim & ->)|[(ctx & -> & ->)|(d & a & -> & Hp)]]]]]]];
      try done.
    + unfold started_world. destruct (OnStart (usr w)). simpl. split; [done|].
      by repeat (apply lives_uncancelled_cons; [done|]).
    + unfold stopped_world. destruct (OnStop (usr w)). simpl. split; [done|].
      by repeat (apply lives_uncancelled_cons; [done|]).
    + simpl. split; [done|]. by apply lives_uncancelled_cons.
    + simpl. split; [done|]. by apply lives_uncancelled_cons.
    + simpl. split; [by rewrite Hc|]. by apply lives_uncancelled_cons.
    + apply proc_step_inv in Hp as (pc & Hpc & Hcases).
      destruct Hcases as
        [(-> & ->)|[(c & -> & _ & ->)|[(c & -> & _ & ->)|[(-> & _ & ->)|
         [(e & q' & -> & _ & ->)|[(e & ctx & rest & -> & _ & _ & ->)|
          [(e & ctx & rest & -> & Hargs & Hlive & ->)|[(e & ctx & x & -> & _ & ->)|
           (e & ctx & x & -> & _ & ->)]]]]]]]]; simpl;
        (split; [done|]); try done; try (by apply lives_uncancelled_cons).
      intros later d' e' ctx' rest' earlier Heq Hargs'.
      destruct later as [|ev' later]; simpl in Heq.
      * injection Heq as <- <- <-. rewrite Hargs in Hargs'. injection Hargs' as <- <-.
        apply orb_false_iff in Hlive as [Hctx _]. unfold ctx_done in Hctx.
        apply bool_decide_eq_false in Hctx. by rewrite <- Hc.
      * injection Heq as _ Heq. by eapply Hl.
Qed.

(** X10. A handler is never called for a request whose context was cancelled
    (or had expired) before the dispatcher checked it: every call follows
    the check of its request by the same dispatcher, and no cancellation of
    the request's context precedes that check. *)
Theorem cancelled_request_is_never_called
    (w : World) (d : nat) (ctx : Context) (args : Args A)
    (later earlier : list (Event A))
    (Hreach : reachable w)
    (Hcall : events w = later ++ EvCall d (request (Some ctx) args) :: earlier) :
  ∃ mid older,
    earlier = mid ++ EvLive d (request (Some ctx) args) :: older ∧
    ctx ∉ cancels_of older.
Proof.
  destruct (checks_ok_ireachable w Idle (reachable_ireachable w Hreach)) as (_ & Hcalls & _).
  destruct (cancelled_is_recorded w Hreach) as [_ Hl].
  destruct (Hcalls later d _ earlier Hcall) as (mid & older & -> & _ & _).
  exists mid, older. split; [done|].
  apply (Hl (later ++ EvCall d (request (Some ctx) args) :: mid) d
           (request (Some ctx) args) ctx [args] older); [|done].
  by rewrite Hcall, <- app_assoc.
Qed.

(** ** The rate limiter over several calls *)

Lemma CheckRateLimit_all_limited (nows : list Z) :
  ∀ (w : World) lim,
    rlimit (bas w) = Some lim → (0 ≤ perRequest lim)%Z →
    let '(wakes, w') := CheckRateLimit_all nows w in
    length wakes = length nows ∧
    spaced (perRequest lim) wakes ∧
    Forall2 Z.le nows wakes ∧
    (∀ t, last lim = Some t → Forall (λ wake, (t + perRequest lim ≤ wake)%Z) wakes) ∧
    (last lim = None → head wakes = head nows) ∧
    bas w' = set_rlimit (rlimit (bas w')) (bas w) ∧
    procs w' = procs w ∧ chans w' = chans w.
Proof.
  induction nows as [|now nows IH]; intros w lim Hlim Hp; simpl.
  - split_and!; try done. by destruct (bas w).
  - rewrite (CheckRateLimit_some w now lim) by done.
    set (w1 := emit _ _).
    assert (rlimit (bas w1) = Some (Take now lim).1) as Hlim1 by done.
    assert (perRequest (Take now lim).1 = perRequest lim) as Hper.
    { unfold Take. by destruct (last lim). }
    assert (last (Take now lim).1 = Some (Take now lim).2) as Hlast.
    { unfold Take. by destruct (last lim). }
    assert (now ≤ (Take now lim).2)%Z as Hnow.
    { unfold Take. destruct (last lim); simpl; lia. }
    specialize (IH w1 _ Hlim1). rewrite Hper in IH. specialize (IH Hp).
    destruct (CheckRateLimit_all nows w1) as [wakes w'].
    destruct IH as (Hlen & Hsp & Hle & Hafter & _ & Hbas & Hprocs & Hchans).
    specialize (Hafter _ Hlast).
    split_and!.
    + simpl. by rewrite Hlen.
    + destruct wakes as [|wake2 wakes]; [done|]. split; [|done].
      by apply Forall_cons in Hafter as [? _].
    + by constructor.
    + intros t Ht. constructor.
      * unfold Take. rewrite Ht. simpl. lia.
      * eapply Forall_impl; [exact Hafter|]. intros wake Hw. simpl in Hw.
        unfold Take in Hw. rewrite Ht in Hw. simpl in Hw. lia.
    + intros Hnone. unfold Take. by rewrite Hnone.
    + exact Hbas.
    + done.
    + done.
Qed.

Lemma spaced_span (p : Z) (ts : list Z) t0 :
  (0 ≤ p)%Z → spaced p (t0 :: ts) →
  (t0 + Z.of_nat (length ts) * p ≤ default t0 (list.last (t0 :: ts)))%Z.
Proof.
  intros Hp. revert t0. induction ts as [|t1 ts IH]; intros t0 Hs.
  - simpl. lia.
  - destruct Hs as [H01 Hs]. specialize (IH t1 Hs).
    rewrite last_cons_cons.
    destruct (list.last (t1 :: ts)) as [tl|] eqn:Hl; [|by apply last_None in Hl].
    simpl length. rewrite Nat2Z.inj_succ, Z.mul_succ_l. simpl in *. lia.
Qed.

(** X11. After [SetRateLimit(n)] with [n > 0], calls of [CheckRateLimit] that
    follow one another share the limiter: the first returns at once, none
    returns before it was called, consecutive returns are at least one
    second divided by [n] apart, and so the last of [k + 1] calls returns at
    least [k] periods after the first (TestRateLimit).  The calls change
    nothing of the service but the limiter. *)
Theorem rate_limit_spaces_calls
    (w : World) (n now : Z) (nows : list Z)
    (Hn : (0 < n)%Z) :
  let w0 := with_bas (set_rlimit (Some (ratelimit_New n))) w in
  let '(wakes, w') := CheckRateLimit_all (now :: nows) w0 in
  SetRateLimit n w = Ret tt w0 ∧
  head wakes = Some now ∧
  Forall2 Z.le (now :: nows) wakes ∧
  spaced (Second / n) wakes ∧
  (now + Z.of_nat (length nows) * (Second / n) ≤ default now (list.last wakes))%Z ∧
  runs (bas w') = runs (bas w) ∧ queue (bas w') = queue (bas w) ∧
  done (bas w') = done (bas w) ∧ procs w' = procs w ∧ chans w' = chans w.
Proof.
  intros w0.
  assert (Z.quot Second n = (Second / n)%Z) as Hq.
  { apply Z.quot_div_nonneg; [by compute | lia]. }
  assert (0 ≤ Second / n)%Z as Hp.
  { apply Z.div_pos; [by compute | done]. }
  pose proof (CheckRateLimit_all_limited (now :: nows) w0 (ratelimit_New n) eq_refl) as H.
  simpl perRequest in H. rewrite Hq in H. specialize (H Hp).
  destruct (CheckRateLimit_all (now :: nows) w0) as [wakes w'].
  destruct H as (Hlen & Hsp & Hle & _ & Hhead & Hbas & Hprocs & Hchans).
  specialize (Hhead eq_refl). simpl in Hhead.
  destruct wakes as [|wake wakes]; [done|]. injection Hhead as ->.
  split_and!; try done.
  - rewrite SetRateLimit_nonzero by lia. done.
  - simpl in Hlen. injection Hlen as Hlen. rewrite <- Hlen. by apply spaced_span.
  - by rewrite Hbas.
  - by rewrite Hbas.
  - by rewrite Hbas.
Qed.

(** Without a limiter every call of [CheckRateLimit] returns at the instant
    it is made, and the world is left as it was. *)
Theorem no_limit_no_wait (w : World) (nows : list Z)
    (Hnone : rlimit (bas w) = None) :
  CheckRateLimit_all nows w = (nows, w).
Proof.
  induction nows as [|now nows IH]; simpl; [done|].
  rewrite CheckRateLimit_none by done. by rewrite IH.
Qed.

(** ** Requests that are queued when the service stops *)

(** The program counter a dispatcher was just given. *)
(** X12. [Stop] does not wait for the dispatcher and does not empty the
    queue, and the requests it leaves there can be lost.  A dispatcher that
    waits in the select of its loop while the DoneSignal is closed and the
    queue is not empty has both cases ready, and a [select] picks any ready
    case: it can take [<-bas.queue.Signal()], and then [Process] takes every
    request off the queue and drops it at the select of [each], without
    calling a handler. *)
Theorem stopped_dispatcher_can_drop_the_queue
    (w : World) (d : nat) (c : option chan) (reqs : list (Context * Args A))
    (Hpc : procs w !! d = Some (PcSelect c))
    (Hclosed : recv_ready (chans w) (Done w) = true)
    (Hq : queue (bas w) = map (λ p, request (Some p.1) p.2) reqs)
    (Hne : reqs ≠ []) :
  proc_step d ActRecvSignal w = Some (set_pc d PcNext w) ∧
  (recv_ready (chans w) c = true →
   proc_step d ActRecvDone w = Some (emit (EvExit d) (set_pc d PcExit w))) ∧
  ∃ w',
    run (Go d ActRecvSignal :: Process_sched d (λ _, false) (queue (bas w))) w = Some w' ∧
    queue (bas w') = [] ∧
    procs w' !! d = Some PcLoop ∧
    calls_of (events w') = calls_of (events w) ∧
    usr w' = usr w ∧
    drops_of (history w') = drops_of (history w) ++ queue (bas w).
Proof.
  assert (d < length (procs w)) as Hd by by eapply lookup_lt_Some.
  assert (proc_step d ActRecvSignal w = Some (set_pc d PcNext w)) as Hsig.
  { unfold proc_step. rewrite Hpc, Hq. by destruct reqs. }
  split_and!.
  - done.
  - intros Hc. unfold proc_step. by rewrite Hpc, Hc.
  - destruct (Process_run d (λ _, false) reqs) with (w := set_pc d PcNext w) as
      (w' & Hrun & Hq' & Hp' & Hc' & Hu' & _ & _ & _ & _ & Hdr).
    + by apply Forall_forall.
    + by apply list_lookup_insert_eq.
    + done.
    + intros e. unfold live. simpl. change (Done (set_pc d PcNext w)) with (Done w).
      rewrite Hclosed. destruct (Args' e) as [|[]]; simpl; try done.
      by rewrite orb_true_r.
    + exists w'. split_and!.
      * rewrite (run_cons (Go d ActRecvSignal) _ w (set_pc d PcNext w)); [exact Hrun|exact Hsig].
      * done.
      * rewrite Hp'. apply list_lookup_insert_eq. simpl. by rewrite length_insert.
      * rewrite Hc', (filter_none (λ _, false)) by done. done.
      * rewrite Hu', (filter_none (λ _, false)) by done. done.
      * unfold drops_of, history in *. rewrite !omap_reverse, Hdr.
        rewrite reverse_app, reverse_involutive. f_equal.
        by apply (filter_all (λ _, negb false)).
Qed.

End MoreProperties.

(** * Properties of the channel-based service *)

Module ChannelServiceFacts.
Import ChannelService.

Section Lifecycle.
Context {U : Type} `{srv : Service U}.

#[local] Abbreviation World := (World U).

Lemma Stop_running_inv (w w1 : World) r :
  runs (bas w) = true → Stop w = Ret r w1 →
  chans w !! done (bas w) = Some false ∧
  bas w1 = set_runs false (bas w) ∧
  chans w1 = <[done (bas w) := true]> (chans w) ∧
  OnStop (usr w) = Ret r (usr w1).
Proof.
  intros Hr. unfold Stop, mbind, M_bind, running, setRunning, close_done, call_hook.
  rewrite Hr. simpl.
  destruct (chans w !! done (bas w)) as [[]|] eqn:Hc; try done.
  simpl. destruct (OnStop (usr w)) as [r' u'|]; [|done]. intros [= <- <-]. split_and!; reflexivity.
Qed.

Lemma Start_not_running_inv (w w1 : World) r :
  runs (bas w) = false → Start w = Ret r w1 →
  bas w1 = set_runs true (bas w) ∧ chans w1 = chans w ∧
  OnStart (usr w) = Ret r (usr w1).
Proof.
  intros Hr. unfold Start, mbind, M_bind, running, setRunning, call_hook.
  rewrite Hr. simpl.
  destruct (OnStart (usr w)) as [r' u'|]; [|done]. intros [= <- <-]. split_and!; reflexivity.
Qed.

(** X14. The constructor makes [done], [input] and [output]: three different
    channels, all open, so that [Done()] is never nil.  When the hooks
    return, the first [Start] and the [Stop] that follows return what the
    hooks return, and that [Stop] leaves the service not running with
    [Done()] closed (TestStop). *)
Theorem first_cycle_closes_Done
    (u u1 u2 : U) (nm : string) (heap : list bool) (r1 r2 : option error)
    (Hstart : OnStart u = Ret r1 u1)
    (Hstop : OnStop u1 = Ret r2 u2) :
  let w := NewBaseService u nm heap in
  closed w (Done w) = false ∧ closed w (Input w) = false ∧ closed w (Output w) = false ∧
  Done w ≠ Input w ∧ Done w ≠ Output w ∧ Input w ≠ Output w ∧
  ∃ w1 w2,
    Start w = Ret r1 w1 ∧ runs (bas w1) = true ∧ closed w1 (Done w1) = false ∧
    Stop w1 = Ret r2 w2 ∧ runs (bas w2) = false ∧ closed w2 (Done w2) = true ∧
    Done w2 = Done w.
Proof.
  intros w. subst w. unfold closed, Done, Input, Output, NewBaseService. simpl.
  assert ((heap ++ [false; false; false]) !! length heap = Some false) as H0.
  { by apply list_lookup_middle. }
  assert ((heap ++ [false; false; false]) !! S (length heap) = Some false) as H1.
  { rewrite lookup_app_r by lia. by replace (S (length heap) - length heap) with 1 by lia. }
  assert ((heap ++ [false; false; false]) !! S (S (length heap)) = Some false) as H2.
  { rewrite lookup_app_r by lia.
    by replace (S (S (length heap)) - length heap) with 2 by lia. }
  unfold chan in *. rewrite H0, H1, H2. split_and!; try done; try lia.
  eexists (mkWorld (mkBase nm true _ _ _ None) u1 _),
          (mkWorld (mkBase nm false _ _ _ None) u2 _).
  split_and!.
  - unfold Start, mbind, M_bind, running, setRunning, call_hook. simpl. by rewrite Hstart.
  - done.
  - simpl. unfold chan. by rewrite H0.
  - unfold Stop, mbind, M_bind, running, setRunning, close_done, call_hook. simpl.
    unfold chan. rewrite H0. simpl. by rewrite Hstop.
  - done.
  - simpl. rewrite list_lookup_insert_eq; [done|]. rewrite length_app. simpl. lia.
  - done.
Qed.

(** X15. [Done()] is made once, by the constructor, so the first accepted
    [Stop] closes it for good: a [Start] that follows is accepted and leaves
    the service running with [Done()] already closed, and the [Stop] after
    that panics on closing the closed channel. *)
Theorem restart_keeps_Done_closed
    (w w1 w2 : World) (r r' : option error)
    (Hrunning : runs (bas w) = true)
    (Hstop : Stop w = Ret r w1)
    (Hstart : Start w1 = Ret r' w2) :
  runs (bas w2) = true ∧
  Done w2 = Done w ∧
  closed w2 (Done w2) = true ∧
  Stop w2 = Panic.
Proof.
  destruct (Stop_running_inv w w1 r Hrunning Hstop) as (Hc & Hb1 & Hc1 & _).
  assert (runs (bas w1) = false) as Hr1 by by rewrite Hb1.
  destruct (Start_not_running_inv w1 w2 r' Hr1 Hstart) as (Hb2 & Hc2 & _).
  assert (done (bas w2) = done (bas w)) as Hd2 by by rewrite Hb2, Hb1.
  assert (runs (bas w2) = true) as Hr2 by by rewrite Hb2.
  assert (chans w2 !! done (bas w2) = Some true) as Hclosed.
  { rewrite Hd2, Hc2, Hc1. apply list_lookup_insert_eq. by eapply lookup_lt_Some. }
  split_and!.
  - done.
  - done.
  - unfold closed, Done. by rewrite Hclosed.
  - unfold Stop, mbind, M_bind, running, setRunning, close_done. rewrite Hr2. simpl.
    by rewrite Hclosed.
Qed.

End Lifecycle.

Section Echo.
Context {A : Type}.

#[local] Abbreviation World := (World (testService A)).

Lemma echo_run_app (s1 s2 : list (Label (A:=A))) (w : World) :
  run (s1 ++ s2) w = run s1 w ≫= run s2.
Proof.
  revert w. induction s1 as [|l s1 IH]; intros w; simpl; [done|].
  destruct (step l w); simpl; [apply IH | done].
Qed.

Lemma echo_reachable_ind (P : World → Prop) :
  P testWorld →
  (∀ l w w', reachable w → P w → step l w = Some w' → P w') →
  ∀ w, reachable w → P w.
Proof.
  intros Hinit Hstep w (sched & Hrun). revert w Hrun.
  induction sched as [|l sched IH] using rev_ind; intros w Hrun.
  - simpl in Hrun. by injection Hrun as <-.
  - rewrite echo_run_app in Hrun.
    destruct (run sched testWorld) as [w1|] eqn:E1; [|done].
    simpl in Hrun. destruct (step l w1) as [w2|] eqn:E2; [|done].
    injection Hrun as <-.
    apply (Hstep l w1 w2); [by exists sched | by apply IH | done].
Qed.

(** What a step does to the workers and to the values sent and received. *)
Lemma step_inv l (w w' : World) :
  step l w = Some w' →
  (workers (usr w') = workers (usr w) ∧ sent (usr w') = sent (usr w) ∧
   received (usr w') = received (usr w) ∧ (l = CallStart ∨ l = CallStop ∨ ∃ n, l = CallSetRateLimit n)) ∨
  (l = CallStart ∧ workers (usr w') = workers (usr w) ++ [AtCheck] ∧
   sent (usr w') = sent (usr w) ∧ received (usr w') = received (usr w)) ∨
  (∃ h pc pc', workers (usr w) !! h = Some pc ∧
     workers (usr w') = <[h := pc']> (workers (usr w)) ∧
     ((∃ req, l = Send h req ∧ pc = AtSelect ∧ pc' = AtSend req ∧
              sent (usr w') = sent (usr w) ++ [req] ∧ received (usr w') = received (usr w)) ∨
      (∃ req, l = Receive h ∧ pc = AtSend req ∧ pc' = AtCheck ∧
              sent (usr w') = sent (usr w) ∧ received (usr w') = received (usr w) ++ [req]) ∨
      ((∃ now, l = Check h now) ∧ pc = AtCheck ∧ pc' = AtSelect ∧
              sent (usr w') = sent (usr w) ∧ received (usr w') = received (usr w)) ∨
      (l = Quit h ∧ pc = AtSelect ∧ pc' = Exited ∧ tdone (usr w) = true ∧
              sent (usr w') = sent (usr w) ∧ received (usr w') = received (usr w)))).
Proof.
  intros Hstep. destruct l; simpl in Hstep.
  - unfold Start, mbind, M_bind, running, reject, setRunning, call_hook in Hstep.
    simpl in Hstep. destruct (runs (bas w)); simpl in Hstep; injection Hstep as <-.
    + left. eauto 10.
    + right. left. done.
  - unfold Stop, mbind, M_bind, running, reject, setRunning, close_done, call_hook in Hstep.
    simpl in Hstep. destruct (runs (bas w)); simpl in Hstep.
    + destruct (chans w !! done (bas w)) as [[]|]; try done. simpl in Hstep.
      destruct (tdone (usr w)); [done|]. injection Hstep as <-. left. eauto 10.
    + injection Hstep as <-. left. eauto 10.
  - injection Hstep as <-. left. eauto 10.
  - destruct (workers (usr w) !! h) as [[| |?|]|] eqn:Hh; try done.
    injection Hstep as <-. do 2 right. exists h, AtSelect, (AtSend req).
    split_and!; [done..|]. left. by exists req.
  - destruct (workers (usr w) !! h) as [[| |req|]|] eqn:Hh; try done.
    injection Hstep as <-. do 2 right. exists h, (AtSend req), AtCheck.
    split_and!; [done..|]. right. left. by exists req.
  - destruct (workers (usr w) !! h) as [[| |?|]|] eqn:Hh; try done.
    unfold CheckRateLimit in Hstep.
    destruct (rlimit (bas w)) as [lim|]; [destruct (Take now lim)|];
      injection Hstep as <-; do 2 right; exists h, AtCheck, AtSelect;
      (split_and!; [done..|]); right; right; left; eauto 10.
  - destruct (workers (usr w) !! h) as [[| |?|]|] eqn:Hh; try done.
    destruct (tdone (usr w)) eqn:Hd; [|done].
    injection Hstep as <-. do 2 right. exists h, AtSelect, Exited.
    split_and!; [done..|]. right. right. right. done.
Qed.

Lemma single_worker h pc (ws : list (Worker A)) :
  ws !! h = Some pc → length ws ≤ 1 → h = 0 ∧ ws = [pc].
Proof.
  destruct ws as [|pc0 [|pc1 ws]]; simpl; [done| |lia].
  destruct h as [|h]; [|done]. by intros [= ->].
Qed.

(** X16. Before the first [Start] there is no [handleRequests] goroutine, so a
    send on [Input()] cannot proceed, whatever else has been called
    (TestStart). *)
Theorem no_send_before_Start
    (sched : list (Label (A:=A))) (w : World) (h : nat) (req : A)
    (Hnostart : forallb (λ l, negb (is_start l)) sched = true)
    (Hrun : run sched testWorld = Some w) :
  workers (usr w) = [] ∧ step (Send h req) w = None.
Proof.
  cut (workers (usr w) = []).
  { intros Hw. split; [done|]. simpl. by rewrite Hw. }
  assert (workers (usr (testWorld (A:=A))) = []) as Hinit by done.
  revert Hinit Hrun. generalize (testWorld (A:=A)). 
  induction sched as [|l sched IH]; intros w0 Hinit Hrun; simpl in *.
  - by injection Hrun as <-.
  - apply andb_prop in Hnostart as [Hl Hns]. apply negb_true_iff in Hl.
    destruct (step l w0) as [w1|] eqn:Hstep; [|done].
    apply (IH Hns w1); [|done].
    apply step_inv in Hstep as
      [(Hw & _)|[(-> & _)|(h' & pc & pc' & Hh & _)]]; [congruence|done|].
    by rewrite Hinit in Hh.
Qed.

(** X17. With a single [handleRequests] goroutine, that is after at most one
    accepted [Start], the service echoes: what the test has received from
    [Output()] followed by the request in transit, if any, is what it has
    sent on [Input()], in the same order (TestRequest). *)
Theorem single_worker_echoes
    (w : World)
    (Hreach : reachable w)
    (Hone : length (workers (usr w)) ≤ 1) :
  sent (usr w) = received (usr w) ++ in_transit (workers (usr w)).
Proof.
  revert w Hreach Hone. apply (echo_reachable_ind (λ w, length (workers (usr w)) ≤ 1 → _)).
  - done.
  - intros l w w' _ IH Hstep Hone.
    apply step_inv in Hstep as
      [(Hw & Hs & Hr & _)|[(_ & Hw & Hs & Hr)|(h & pc & pc' & Hh & Hw & Hcases)]].
    + rewrite Hw, Hs, Hr in *. by apply IH.
    + rewrite Hw, Hs, Hr in *. rewrite length_app in Hone. simpl in Hone.
      destruct (workers (usr w)) as [|? ?] eqn:Hws; [|simpl in Hone; lia].
      simpl. apply IH. simpl. lia.
    + rewrite Hw in *. rewrite length_insert in Hone.
      destruct (single_worker h pc _ Hh Hone) as [-> Hws].
      specialize (IH Hone). rewrite Hws in *. simpl in *.
      destruct Hcases as
        [(req & _ & -> & -> & -> & ->)|[(req & _ & -> & -> & -> & ->)|
         [(_ & -> & -> & -> & ->)|(_ & -> & -> & _ & -> & ->)]]]; simpl in *.
      * rewrite app_nil_r in IH. by rewrite IH.
      * by rewrite app_nil_r.
      * done.
      * done.
Qed.

End Echo.

Lemma first_cycle_witness :
  let w := NewBaseService (U:=testService string) newTestService "Test" [] in
  OnStart (newTestService (A:=string)) = Ret None (mkTest false [AtCheck] [] []) ∧
  OnStop (mkTest (A:=string) false [AtCheck] [] []) = Ret None (mkTest true [AtCheck] [] []) ∧
  closed w (Done w) = false ∧ closed w (Input w) = false ∧ closed w (Output w) = false ∧
  Done w ≠ Input w ∧ Done w ≠ Output w ∧ Input w ≠ Output w ∧
  ∃ w1 w2,
    Start w = Ret None w1 ∧ runs (bas w1) = true ∧ closed w1 (Done w1) = false ∧
    Stop w1 = Ret None w2 ∧ runs (bas w2) = false ∧ closed w2 (Done w2) = true ∧
    Done w2 = Done w.
Proof.
  intros w.
  assert (OnStart (newTestService (A:=string)) = Ret None (mkTest false [AtCheck] [] []))
    as H1 by reflexivity.
  assert (OnStop (mkTest (A:=string) false [AtCheck] [] [])
          = Ret None (mkTest true [AtCheck] [] [])) as H2 by reflexivity.
  split; [exact H1|]. split; [exact H2|].
  exact (first_cycle_closes_Done _ _ _ "Test" [] None None H1 H2).
Defined.

Lemma restart_witness :
  let w := world_after (A:=string) [CallStart] testWorld in
  let w1 := world_after (A:=string) [CallStart; CallStop] testWorld in
  let w2 := world_after (A:=string) [CallStart; CallStop; CallStart] testWorld in
  runs (bas w) = true ∧
  Stop w = Ret None w1 ∧
  Start w1 = Ret None w2 ∧
  runs (bas w2) = true ∧
  Done w2 = Done w ∧
  closed w2 (Done w2) = true ∧
  Stop w2 = Panic.
Proof.
  intros w w1 w2.
  assert (runs (bas w) = true) as H1 by (vm_compute; reflexivity).
  assert (Stop w = Ret None w1) as H2 by (vm_compute; reflexivity).
  assert (Start w1 = Ret None w2) as H3 by (vm_compute; reflexivity).
  split; [exact H1|]. split; [exact H2|]. split; [exact H3|].
  exact (restart_keeps_Done_closed w w1 w2 None None H1 H2 H3).
Defined.

Lemma no_send_witness :
  let sched := [CallStop; CallSetRateLimit 2; CallStop] in
  let w := world_after (A:=string) sched testWorld in
  forallb (λ l, negb (is_start l)) sched = true ∧
  run sched testWorld = Some w ∧
  workers (usr w) = [] ∧ step (Send 0 "testData"%string) w = None.
Proof.
  intros sched w.
  assert (forallb (λ l, negb (is_start l)) sched = true) as H1 by (vm_compute; reflexivity).
  assert (run sched testWorld = Some w) as H2 by (vm_compute; reflexivity).
  split; [exact H1|]. split; [exact H2|].
  exact (no_send_before_Start sched w 0 "testData"%string H1 H2).
Defined.

Lemma echo_witness :
  let sched :=
    [CallStart; Check 0 0; Send 0 "str1"; Receive 0; Check 0 1; Send 0 "str2"]%string in
  let w := world_after (A:=string) sched testWorld in
  reachable w ∧
  length (workers (usr w)) ≤ 1 ∧
  sent (usr w) = received (usr w) ++ in_transit (workers (usr w)).
Proof.
  intros sched w.
  assert (reachable w) as H1 by (exists sched; vm_compute; reflexivity).
  assert (length (workers (usr w)) ≤ 1) as H2 by (vm_compute; lia).
  split; [exact H1|]. split; [exact H2|].
  exact (single_worker_echoes w H1 H2).
Defined.

End ChannelServiceFacts.

(** * Further properties of the queue-based service, continued *)

Section StopOrder.
Context {A U : Type} `{srv : Service A U}.

(** X13. An accepted [Stop] clears the flag, closes the DoneSignal and only
    then calls the stop hook, and returns what the hook returns; whatever
    that is, an error included, the service is left stopped with [Done()]
    closed, its queue and its dispatchers untouched. *)
Theorem Stop_closes_before_hook
    (w : World A U)
    (Hreach : reachable w)
    (Hrunning : runs (bas w) = true) :
  ∃ c w',
    Done w = Some c ∧
    Stop w = Ret (OnStop (usr w)).2 w' ∧
    history w' = history w ++ [EvSetRunning false; EvClose c; EvOnStop (OnStop (usr w)).2] ∧
    runs (bas w') = false ∧
    recv_ready (chans w') (Done w') = true ∧
    queue (bas w') = queue (bas w) ∧ procs w' = procs w ∧
    usr w' = (OnStop (usr w)).1.
Proof.
  pose proof (lifecycle_ok_reachable w Hreach) as Hlife. unfold lifecycle_ok in Hlife.
  destruct (done (bas w)) as [c|] eqn:Hd; [|destruct Hlife; congruence].
  rewrite Hrunning in Hlife. simpl in Hlife.
  exists c, (stopped_world c w). split_and!.
  - done.
  - by apply Stop_running.
  - unfold stopped_world, history. destruct (OnStop (usr w)). simpl.
    by rewrite !reverse_cons, <- !app_assoc.
  - unfold stopped_world. by destruct (OnStop (usr w)).
  - unfold stopped_world, Done. destruct (OnStop (usr w)). simpl. rewrite Hd. simpl.
    rewrite list_lookup_insert_eq; [done|]. by eapply lookup_lt_Some.
  - unfold stopped_world. by destruct (OnStop (usr w)).
  - unfold stopped_world. by destruct (OnStop (usr w)).
  - unfold stopped_world. by destruct (OnStop (usr w)).
Qed.

End StopOrder.

(** ** On the test service *)

Lemma Done_ready_witness :
  let s := iworld_after restart_overtaken (testWorld, Idle) in
  ireachable (s.1, s.2) ∧
  Done s.1 = head (makes_of (events s.1)) ∧
  recv_ready (chans s.1) (Done s.1) =
    match Done s.1 with
    | None => false
    | Some _ => negb (runs (bas s.1)) && negb (in_gap s.2)
    end ∧
  (in_gap s.2 = true → runs (bas s.1) = false).
Proof.
  intros s.
  assert (ireachable (s.1, s.2)) as H1.
  { exists newTestService, "Test"%string, restart_overtaken. by_eval. }
  split; [exact H1|]. exact (Done_ready_iff_stopped s.1 s.2 H1).
Defined.

Lemma heap_shape_witness :
  let w := world_after [CallStart; CallStop; CallStart] testWorld in
  reachable w ∧
  chans w = heap_after (length (gos_of (events w))) (runs (bas w)) ∧
  Done w = done_after (length (gos_of (events w))) ∧
  length (procs w) = length (gos_of (events w)).
Proof.
  intros w.
  assert (reachable w) as H1.
  { exists newTestService, "Test"%string, [CallStart; CallStop; CallStart]. by_eval. }
  split; [exact H1|]. exact (heap_shape w H1).
Defined.

Lemma lifecycle_statements_witness :
  let s := iworld_after [EnterStart; Stmt; Stmt; Stmt; Stmt;
                         Other (CallRequest (Some 0) (str "a"));
                         Other (Go 0 ActEval); EnterStop; Stmt]
             (testWorld, Idle) in
  ireachable (s.1, s.2) ∧
  s.2 ≠ Idle ∧
  ∃ s',
    istep Stmt (s.1, s.2) = Some s' ∧
    (s.2 = StopSet →
     ∃ ch, Done s.1 = Some ch ∧ chans s.1 !! ch = Some false ∧ chans s'.1 !! ch = Some true).
Proof.
  intros s.
  assert (ireachable (s.1, s.2)) as H1.
  { exists newTestService, "Test"%string,
      [EnterStart; Stmt; Stmt; Stmt; Stmt; Other (CallRequest (Some 0) (str "a"));
       Other (Go 0 ActEval); EnterStop; Stmt]. by_eval. }
  assert (s.2 ≠ Idle) as H2 by (vm_compute; discriminate).
  split; [exact H1|]. split; [exact H2|].
  exact (lifecycle_statements_never_panic s.1 s.2 H1 H2).
Defined.

Lemma panics_only_on_nil_witness :
  let w := world_after ([CallStart; CallRequest (Some 0) ArgNil] ++ dequeue 0 ++
                        [Go 0 ActPoll]) testWorld in
  reachable w ∧
  (∀ d a, proc_panics d a w = true →
     ∃ ctx args,
       request ctx args ∈ appends_of (history w) ∧
       ((a = ActPoll ∧ procs w !! d = Some (PcEach (request ctx args)) ∧ ctx = None) ∨
        (a = ActCall ∧ procs w !! d = Some (PcCall (request ctx args)) ∧ args = ArgNil))) ∧
  (Forall (λ e, ArgNil ∉ Args' e) (appends_of (history w)) →
   ∀ d a, proc_panics d a w = false).
Proof.
  intros w.
  assert (reachable w) as H1.
  { exists newTestService, "Test"%string,
      ([CallStart; CallRequest (Some 0) ArgNil] ++ dequeue 0 ++ [Go 0 ActPoll]). by_eval. }
  split; [exact H1|]. exact (dispatcher_panics_only_on_nil w H1).
Defined.

Lemma queue_conservation_witness :
  let w := world_after three_requests_one_taken testWorld in
  reachable w ∧
  appends_of (history w) = nexts_of (history w) ++ queue (bas w).
Proof.
  intros w.
  assert (reachable w) as H1.
  { exists newTestService, "Test"%string, three_requests_one_taken. by_eval. }
  split; [exact H1|]. exact (queue_conservation w H1).
Defined.

(** TestLen: three requests, the first in its handler. *)
Lemma Len_witness :
  let w := world_after three_requests_one_taken testWorld in
  reachable w ∧
  Len w = Ret (length (appends_of (history w)) - length (nexts_of (history w))) w.
Proof.
  intros w.
  assert (reachable w) as H1.
  { exists newTestService, "Test"%string, three_requests_one_taken. by_eval. }
  split; [exact H1|]. exact (Len_counts_pending w H1).
Defined.

Lemma single_start_fifo_witness :
  let w := world_after cancel_while_handling testWorld in
  reachable w ∧
  length (gos_of (events w)) ≤ 1 ∧
  calls_of (history w) `sublist_of` appends_of (history w).
Proof.
  intros w.
  assert (reachable w) as H1.
  { exists newTestService, "Test"%string, cancel_while_handling. by_eval. }
  assert (length (gos_of (events w)) ≤ 1) as H2 by (vm_compute; lia).
  split; [exact H1|]. split; [exact H2|]. exact (single_start_fifo w H1 H2).
Defined.

Lemma single_start_one_handler_witness :
  let w := world_after three_requests_one_taken testWorld in
  reachable w ∧
  length (gos_of (events w)) ≤ 1 ∧
  in_flight w ≤ 1.
Proof.
  intros w.
  assert (reachable w) as H1.
  { exists newTestService, "Test"%string, three_requests_one_taken. by_eval. }
  assert (length (gos_of (events w)) ≤ 1) as H2 by (vm_compute; lia).
  split; [exact H1|]. split; [exact H2|]. exact (single_start_one_handler w H1 H2).
Defined.

Lemma accounted_witness :
  let w := world_after cancel_while_handling testWorld in
  reachable w ∧
  length (nexts_of (events w)) =
    length (drops_of (events w)) + length (lives_of (events w)) + checking w ∧
  length (lives_of (events w)) = length (calls_of (events w)) + calling w ∧
  length (calls_of (events w)) = length (returns_of (events w)) + in_flight w.
Proof.
  intros w.
  assert (reachable w) as H1.
  { exists newTestService, "Test"%string, cancel_while_handling. by_eval. }
  split; [exact H1|]. exact (dequeued_requests_accounted w H1).
Defined.

Lemma cancelled_never_called_witness :
  let w := world_after cancel_while_handling testWorld in
  reachable w ∧
  events w = take 4 (events w) ++ EvCall 0 (request (Some 1) (str "str1")) :: drop 5 (events w) ∧
  ∃ mid older,
    drop 5 (events w) = mid ++ EvLive 0 (request (Some 1) (str "str1")) :: older ∧
    1 ∉ cancels_of older.
Proof.
  intros w.
  assert (reachable w) as H1.
  { exists newTestService, "Test"%string, cancel_while_handling. by_eval. }
  assert (events w = take 4 (events w) ++
            EvCall 0 (request (Some 1) (str "str1")) :: drop 5 (events w)) as H2 by by_eval.
  split; [exact H1|]. split; [exact H2|].
  exact (cancelled_request_is_never_called w 0 1 (str "str1") _ _ H1 H2).
Defined.

(** TestRateLimit: a limit of one call per second, three calls. *)
Lemma rate_limit_witness :
  let w0 := with_bas (set_rlimit (Some (ratelimit_New 1))) testWorld in
  let '(wakes, w') := CheckRateLimit_all (0 :: [5; 10])%Z w0 in
  (0 < 1)%Z ∧
  SetRateLimit 1 testWorld = Ret tt w0 ∧
  head wakes = Some 0%Z ∧
  Forall2 Z.le (0 :: [5; 10])%Z wakes ∧
  spaced (Second / 1) wakes ∧
  (0 + Z.of_nat (length [5; 10]%Z) * (Second / 1) ≤ default 0 (list.last wakes))%Z ∧
  runs (bas w') = runs (bas testWorld) ∧ queue (bas w') = queue (bas testWorld) ∧
  done (bas w') = done (bas testWorld) ∧ procs w' = procs testWorld ∧
  chans w' = chans testWorld.
Proof.
  assert (0 < 1)%Z as H1 by lia.
  pose proof (rate_limit_spaces_calls testWorld 1 0 [5; 10]%Z H1) as H.
  cbv zeta in H |- *.
  destruct (CheckRateLimit_all (0 :: [5; 10])%Z _) as [wakes w'].
  split; [exact H1|]. exact H.
Defined.

Lemma drop_the_queue_witness :
  let w := world_after [CallStart; CallRequest (Some 0) (str "a");
                        CallRequest (Some 0) (str "b"); Go 0 ActEval; CallStop]
             testWorld in
  let reqs := [(0, str "a"); (0, str "b")] in
  procs w !! 0 = Some (PcSelect (Some 0)) ∧
  recv_ready (chans w) (Done w) = true ∧
  queue (bas w) = map (λ p, request (Some p.1) p.2) reqs ∧
  reqs ≠ [] ∧
  proc_step 0 ActRecvSignal w = Some (set_pc 0 PcNext w) ∧
  (recv_ready (chans w) (Some 0) = true →
   proc_step 0 ActRecvDone w = Some (emit (EvExit 0) (set_pc 0 PcExit w))) ∧
  ∃ w',
    run (Go 0 ActRecvSignal :: Process_sched 0 (λ _, false) (queue (bas w))) w = Some w' ∧
    queue (bas w') = [] ∧
    procs w' !! 0 = Some PcLoop ∧
    calls_of (events w') = calls_of (events w) ∧
    usr w' = usr w ∧
    drops_of (history w') = drops_of (history w) ++ queue (bas w).
Proof.
  intros w reqs.
  assert (procs w !! 0 = Some (PcSelect (Some 0))) as H1 by by_eval.
  assert (recv_ready (chans w) (Done w) = true) as H2 by by_eval.
  assert (queue (bas w) = map (λ p, request (Some p.1) p.2) reqs) as H3 by by_eval.
  assert (reqs ≠ []) as H4 by done.
  split; [exact H1|]. split; [exact H2|]. split; [exact H3|]. split; [exact H4|].
  exact (stopped_dispatcher_can_drop_the_queue w 0 (Some 0) reqs H1 H2 H3 H4).
Defined.

Lemma Stop_order_witness :
  let w := world_after [CallStart] failingWorld in
  reachable w ∧
  runs (bas w) = true ∧
  ∃ c w',
    Done w = Some c ∧
    Stop w = Ret (OnStop (usr w)).2 w' ∧
    history w' = history w ++ [EvSetRunning false; EvClose c; EvOnStop (OnStop (usr w)).2] ∧
    runs (bas w') = false ∧
    recv_ready (chans w') (Done w') = true ∧
    queue (bas w') = queue (bas w) ∧ procs w' = procs w ∧
    usr w' = (OnStop (usr w)).1.
Proof.
  intros w.
  assert (reachable w) as H1.
  { exists FailingService, "Failing"%string, [CallStart]. by_eval. }
  assert (runs (bas w) = true) as H2 by by_eval.
  split; [exact H1|]. split; [exact H2|]. exact (Stop_closes_before_hook w H1 H2).
Defined.
